(** * PyFolding: the Ising partition function and the global fit wrapper

    A shallow embedding of [pyfolding/ising.py].  Python floats are taken as
    exact real numbers ([R]), which leaves rounding, overflow and [nan]
    out; the methods of the partition function are given a second time
    over binary64 numbers (module [Binary64]), for the inputs at which
    overflow decides the result.  Python exceptions are the [Raise] case of
    [outcome]. *)

From Stdlib Require Import Floats.
From Stdlib Require Import Reals Lra Lia String.
From stdpp Require Import base list.

Open Scope R_scope.

(** ** Exceptions

    The Python exceptions that the modelled code raises.
    [DanglingReference] is not one of them: see [deref]. *)

Inductive exn : Type :=
| TypeError
| ValueError
| IndexError
| StopIteration
| DanglingReference.

Inductive outcome (A : Type) : Type :=
| Ret (a : A)
| Raise (e : exn).
Arguments Ret {A} a.
Arguments Raise {A} e.

Global Instance outcome_ret : MRet outcome := fun A a => Ret a.

Global Instance outcome_bind : MBind outcome := fun A B k c =>
  match c with
  | Ret a => k a
  | Raise e => Raise e
  end.

(** A Python comprehension [[f(i) for i in l]] whose body may raise. *)
Fixpoint comprehension {A B : Type} (f : A -> outcome B) (l : list A) : outcome (list B) :=
  match l with
  | [] => Ret []
  | a :: l' => b ← f a; bs ← comprehension f l'; Ret (b :: bs)
  end.

(** Indexing a tuple or a list: [t[i]]. *)
Definition getitem {A : Type} (t : list A) (i : nat) : outcome A :=
  match t !! i with
  | Some a => Ret a
  | None => Raise IndexError
  end.

(** ** Module constants *)

Definition PARAMETER_LABELS : list string :=
  ["DG_i"; "DG_ij"; "m_i"; "m_ij"]%string.

Definition ACCEPTABLE_BOUNDS : list (R * R) :=
  [(-2, 15); (-15, 2); (-3, -0.01); (-3, -0.01)].

(** ** Energetics

    [constants.RT] is defined outside [ising.py]; every function that reads
    it takes it as the parameter [RT]. *)

Definition free_energy_m (RT : R) (x DeltaG m_value : R) : R :=
  exp (- (DeltaG - m_value * x) / RT).

Definition free_energy (RT : R) (x DeltaG m_value : R) : R :=
  exp (- DeltaG / RT).

(** ** Ising domains

    The predefined subclasses of [IsingDomain].  Each calls
    [IsingDomain.__init__] without arguments, so its [kappa] is
    [free_energy_m] and its [tau] is [free_energy]. *)

Inductive domain_class : Type :=
| HelixDomain
| RepeatDomain
| MutantRepeatDomain
| LoopDomain
| MutantLoopDomain
| CapDomain
| MutantCapDomain.

Global Instance domain_class_eq_dec : EqDecision domain_class.
Proof. solve_decision. Defined.

(** The attributes of a domain object that the fit reads or writes.  [name],
    [used_variables] and [q_func] are set once by the constructor of the
    class and never assigned again, so they are functions of [cls]. *)
Record IsingDomain : Type := mkIsingDomain {
  cls : domain_class;
  DG_i : R;
  DG_ij : R;
  m_i : R;
  m_ij : R
}.

(** [domain()] for a class [c]: the defaults of [IsingDomain.__init__]. *)
Definition IsingDomain_init (c : domain_class) : IsingDomain :=
  {| cls := c; DG_i := 2; DG_ij := -4; m_i := -0.5; m_ij := -0.5 |}.

Definition name (self : IsingDomain) : string :=
  match cls self with
  | HelixDomain => "Helix"
  | RepeatDomain => "Repeat"
  | MutantRepeatDomain => "MutantRepeat"
  | LoopDomain => "Loop"
  | MutantLoopDomain => "MutantLoop"
  | CapDomain => "Cap"
  | MutantCapDomain => "MutantCap"
  end%string.

Definition used_variables (self : IsingDomain) : list nat :=
  match cls self with
  | CapDomain | MutantCapDomain => [0; 2]
  | _ => [0; 1; 2]
  end%nat.

Definition kappa (RT : R) (self : IsingDomain) (x : R) : R :=
  free_energy_m RT x (DG_i self) (m_i self).

Definition tau (RT : R) (self : IsingDomain) (x : R) : R :=
  free_energy RT x (DG_ij self) (m_ij self).

(** A 2x2 [np.matrix], row by row, and a 1x2 row vector. *)
Definition matrix2 : Type := (R * R) * (R * R).
Definition rowvec : Type := (R * R)%type.

(** [v * m] for a row vector [v]. *)
Definition rowmul (v : rowvec) (m : matrix2) : rowvec :=
  let '(a, b) := v in
  let '((m00, m01), (m10, m11)) := m in
  (a * m00 + b * m10, a * m01 + b * m11).

Definition q_func (RT : R) (self : IsingDomain) (x folded : R) : matrix2 :=
  match cls self with
  | CapDomain | MutantCapDomain =>
      ((kappa RT self x, folded), (kappa RT self x, folded))
  | _ =>
      ((kappa RT self x * tau RT self x, folded), (kappa RT self x, folded))
  end.

Definition q_i (RT : R) (self : IsingDomain) (x folded : R) : matrix2 :=
  q_func RT self x folded.

(** The [bounds] property: the private bounds tuple (always
    [ACCEPTABLE_BOUNDS]) restricted to [used_variables]. *)
Definition bounds (self : IsingDomain) : outcome (list (R * R)) :=
  comprehension (fun i => getitem ACCEPTABLE_BOUNDS i) (used_variables self).

Definition labels (self : IsingDomain) : outcome (list string) :=
  comprehension (fun i => getitem PARAMETER_LABELS i) (used_variables self).

(** [setattr(domain, p, v)].  Any other attribute name would create an
    attribute that no method reads. *)
Definition setattr (self : IsingDomain) (p : string) (v : R) : IsingDomain :=
  if String.eqb p "DG_i" then
    {| cls := cls self; DG_i := v; DG_ij := DG_ij self; m_i := m_i self; m_ij := m_ij self |}
  else if String.eqb p "DG_ij" then
    {| cls := cls self; DG_i := DG_i self; DG_ij := v; m_i := m_i self; m_ij := m_ij self |}
  else if String.eqb p "m_i" then
    {| cls := cls self; DG_i := DG_i self; DG_ij := DG_ij self; m_i := v; m_ij := m_ij self |}
  else if String.eqb p "m_ij" then
    {| cls := cls self; DG_i := DG_i self; DG_ij := DG_ij self; m_i := m_i self; m_ij := v |}
  else self.

(** ** The partition function

    [IsingPartitionFunction D] is the object with a topology of [D]s: of
    domain values when its methods are evaluated, of references into the
    store when it is held by a fit session. *)

Record IsingPartitionFunction (D : Type) : Type := mkPartition {
  topology : list D;
  n : nat
}.
Arguments mkPartition {D} topology n.
Arguments topology {D} _.
Arguments n {D} _.

Definition init_topology {D : Type} (topology : list D) : IsingPartitionFunction D :=
  {| topology := topology; n := length topology |}.

(** What [isinstance] tells about the constructor's argument. *)
Inductive pyelem (D : Type) : Type :=
| AnIsingDomain (d : D)
| NotAnIsingDomain.
Arguments AnIsingDomain {D} d.
Arguments NotAnIsingDomain {D}.

Inductive pyarg (D : Type) : Type :=
| AList (l : list (pyelem D))
| NotAList.
Arguments AList {D} l.
Arguments NotAList {D}.

(** The loop [for domain in topology: if not isinstance(...): raise]. *)
Fixpoint check_domains {D : Type} (l : list (pyelem D)) : outcome (list D) :=
  match l with
  | [] => Ret []
  | AnIsingDomain d :: l' => ds ← check_domains l'; Ret (d :: ds)
  | NotAnIsingDomain :: _ => Raise TypeError
  end.

(** [IsingPartitionFunction.__init__]; the default [topology=None] is
    [NotAList]. *)
Definition IsingPartitionFunction_init {D : Type} (topology : pyarg D)
  : outcome (IsingPartitionFunction D) :=
  match topology with
  | NotAList => Raise TypeError
  | AList l => ds ← check_domains l; Ret (init_topology ds)
  end.

Definition ones (k : nat) : list R := replicate k 1.

(** The loop of [partition]: [for i in xrange(self.n)]. *)
Fixpoint partition_loop (RT : R) (self : IsingPartitionFunction IsingDomain)
    (x : R) (folded : list R) (q : rowvec) (range : list nat) : outcome rowvec :=
  match range with
  | [] => Ret q
  | i :: range' =>
      domain ← getitem (topology self) i;
      f ← getitem folded i;
      partition_loop RT self x folded (rowmul q (q_i RT domain x f)) range'
  end.

(** [partition(x, folded)]; the default [folded=np.array([])] is [[]]. *)
Definition partition (RT : R) (self : IsingPartitionFunction IsingDomain)
    (x : R) (folded : list R) : outcome R :=
  let folded := if decide (length folded = 0%nat) then ones (n self) else folded in
  q ← partition_loop RT self x folded (0, 1) (seq 0 (n self));
  Ret (fst q * 1 + snd q * 1).

(** [subpartition(x, i, rev)]; [folded[i] = 0.] raises out of range. *)
Definition subpartition (RT : R) (self : IsingPartitionFunction IsingDomain)
    (x : R) (i : nat) (rev : bool) : outcome R :=
  let folded := ones (n self) in
  folded ← (if decide (i < n self)%nat then Ret (<[i := 0]> folded) else Raise IndexError);
  let folded := if rev then map (fun f => 1 - f) folded else folded in
  partition RT self x folded.

(** [np.sum] of a list of numbers. *)
Definition np_sum (l : list R) : R := foldr Rplus 0 l.

(** [theta(x)].  For [n = 0] the quotient is [0/0], which is [nan] in
    numpy and has no counterpart in [R]: the statements about the value of
    [theta], and about what is computed from it, take non-empty
    topologies. *)
Definition theta (RT : R) (self : IsingPartitionFunction IsingDomain) (x : R) : outcome R :=
  q_n ← partition RT self x [];
  subs ← comprehension (fun i => subpartition RT self x i false) (seq 0 (n self));
  let sum_q_i := np_sum subs in
  let theta := sum_q_i / (INR (n self) * q_n) in
  Ret (1 - theta).

(** [subpopulation(x, i)] *)
Definition subpopulation (RT : R) (self : IsingPartitionFunction IsingDomain)
    (x : R) (i : nat) : outcome R :=
  q_n ← partition RT self x [];
  q_i ← subpartition RT self x i true;
  let theta := q_i / q_n in
  Ret (1 - theta).

(** The classes whose constructor replaces [q_func] by the matrix without
    [tau]. *)
Definition is_cap (self : IsingDomain) : bool :=
  match cls self with
  | CapDomain | MutantCapDomain => true
  | _ => false
  end.

(** ** Configurations of a chain

    A configuration gives each domain of a chain a state: [true] for the
    state of column 0 of its [q_i] matrix (folded, weighted by [kappa]),
    [false] for the state of column 1 (unfolded, weighted by the [folded]
    indicator).  These definitions state what the transfer-matrix product
    computes; they are not part of the Python source. *)

(** The weight of a domain in state [b] when its predecessor is in state
    [prev]; [f] is its folded indicator. *)
Definition domain_weight (RT : R) (d : IsingDomain) (x f : R) (prev b : bool) : R :=
  if b then
    if prev && negb (is_cap d) then kappa RT d x * tau RT d x else kappa RT d x
  else f.

(** The weight of the configuration [sigma] of the chain [doms]: the
    product of the weights of its domains. *)
Fixpoint config_weight (RT : R) (x : R) (prev : bool) (doms : list IsingDomain)
    (fs : list R) (sigma : list bool) : R :=
  match doms, fs, sigma with
  | d :: doms', f :: fs', b :: sigma' =>
      domain_weight RT d x f prev b * config_weight RT x b doms' fs' sigma'
  | _, _, _ => 1
  end.

(** The [2^k] configurations of a chain of [k] domains. *)
Fixpoint configs (k : nat) : list (list bool) :=
  match k with
  | O => [[]]
  | S k' => map (cons true) (configs k') ++ map (cons false) (configs k')
  end.

(** The number of folded domains of a configuration. *)
Definition folded_count (sigma : list bool) : nat :=
  length (List.filter (fun b => b) sigma).

(** ** The partition function in binary64

    The methods of the partition function once more, with Python's floats
    as IEEE 754 binary64 numbers (the primitive [float]) in place of real
    numbers: a result too large is [infinity], and [infinity / infinity]
    is [nan], as in numpy.  [np.exp] is numpy's and is the parameter
    [np_exp]; [constants.RT] is the parameter [RT].  The matrix product
    and [np.sum] add in the order written here; numpy may add in another
    order, which can change the last bits of a finite result. *)

Module Binary64.

#[local] Set Warnings "-inexact-float".
Local Open Scope float_scope.

Record IsingDomain : Type := mkIsingDomain {
  cls : domain_class;
  DG_i : float;
  DG_ij : float;
  m_i : float;
  m_ij : float
}.

Definition ACCEPTABLE_BOUNDS : list (float * float) :=
  [(-2, 15); (-15, 2); (-3, -0.01); (-3, -0.01)].

Section Methods.

Variable np_exp : float -> float.
Variable RT : float.

Definition free_energy_m (x DeltaG m_value : float) : float :=
  np_exp (- (DeltaG - m_value * x) / RT).

Definition free_energy (x DeltaG m_value : float) : float :=
  np_exp (- DeltaG / RT).

Definition kappa (self : IsingDomain) (x : float) : float :=
  free_energy_m x (DG_i self) (m_i self).

Definition tau (self : IsingDomain) (x : float) : float :=
  free_energy x (DG_ij self) (m_ij self).

Definition matrix2 : Type := (float * float) * (float * float).
Definition rowvec : Type := (float * float)%type.

Definition rowmul (v : rowvec) (m : matrix2) : rowvec :=
  let '(a, b) := v in
  let '((m00, m01), (m10, m11)) := m in
  (a * m00 + b * m10, a * m01 + b * m11).

Definition q_func (self : IsingDomain) (x folded : float) : matrix2 :=
  match cls self with
  | CapDomain | MutantCapDomain =>
      ((kappa self x, folded), (kappa self x, folded))
  | _ =>
      ((kappa self x * tau self x, folded), (kappa self x, folded))
  end.

Definition q_i (self : IsingDomain) (x folded : float) : matrix2 :=
  q_func self x folded.

Definition ones (k : nat) : list float := replicate k 1.

Fixpoint partition_loop (self : IsingPartitionFunction IsingDomain)
    (x : float) (folded : list float) (q : rowvec) (range : list nat) : outcome rowvec :=
  match range with
  | [] => Ret q
  | i :: range' =>
      domain ← getitem (topology self) i;
      f ← getitem folded i;
      partition_loop self x folded (rowmul q (q_i domain x f)) range'
  end.

Definition partition (self : IsingPartitionFunction IsingDomain)
    (x : float) (folded : list float) : outcome float :=
  let folded := if decide (length folded = 0%nat) then ones (n self) else folded in
  q ← partition_loop self x folded (0, 1) (seq 0 (n self));
  Ret (fst q * 1 + snd q * 1).

Definition subpartition (self : IsingPartitionFunction IsingDomain)
    (x : float) (i : nat) (rev : bool) : outcome float :=
  let folded := ones (n self) in
  folded ← (if decide (i < n self)%nat then Ret (<[i := 0]> folded) else Raise IndexError);
  let folded := if rev then map (fun f => 1 - f) folded else folded in
  partition self x folded.

Definition np_sum (l : list float) : float := foldl PrimFloat.add 0 l.

(** The integer [self.n] as a float. *)
Definition float_of_nat (k : nat) : float :=
  PrimFloat.of_uint63 (Uint63.of_Z (Z.of_nat k)).

Definition theta (self : IsingPartitionFunction IsingDomain) (x : float) : outcome float :=
  q_n ← partition self x [];
  subs ← comprehension (fun i => subpartition self x i false) (seq 0 (n self));
  let sum_q_i := np_sum subs in
  let theta := sum_q_i / (float_of_nat (n self) * q_n) in
  Ret (1 - theta).

End Methods.

(** The parameter values of a domain lie within [ACCEPTABLE_BOUNDS]. *)
Definition within (b : float * float) (v : float) : bool :=
  (b.1 <=? v) && (v <=? b.2).

Definition in_bounds (d : IsingDomain) : bool :=
  match ACCEPTABLE_BOUNDS with
  | [b0; b1; b2; b3] =>
      within b0 (DG_i d) && within b1 (DG_ij d) && within b2 (m_i d) && within b3 (m_ij d)
  | _ => false
  end.

(** [0 <= t <= 1]; false for [nan]. *)
Definition in_unit_interval (t : float) : bool := (0 <=? t) && (t <=? 1).

(** A Repeat domain with [DG_i = DG_ij = 0] and the default m-values: at
    [x = 0] its [kappa] and [tau] are both [exp(-0.)]. *)
Definition flat_domain : IsingDomain :=
  {| cls := RepeatDomain; DG_i := 0; DG_ij := 0; m_i := -0.5; m_ij := -0.5 |}.

(** A value of [constants.RT]: the gas constant in kcal/(mol K) times
    298.15 K. *)
Definition RT_sample : float := 1.987204118e-3 * 298.15.

End Binary64.

(** ** Error estimation from the Jacobian *)

(** An [np.matrix]: its shape and its entries. *)
Record matrix : Type := mkMatrix {
  nrows : nat;
  ncols : nat;
  entry : nat -> nat -> R
}.

(** A numpy array of rank 1 or of rank 2. *)
Inductive ndarray : Type :=
| Array1 (v : list R)
| Array2 (m : matrix).

(** [sum_below f k] is [f 0 + ... + f (k-1)]. *)
Fixpoint sum_below (f : nat -> R) (k : nat) : R :=
  match k with
  | O => 0
  | S k' => sum_below f k' + f k'
  end.

(** [np.ravel]: the entries, row by row. *)
Definition np_ravel (a : ndarray) : list R :=
  match a with
  | Array1 v => v
  | Array2 m => flat_map (fun i => map (entry m i) (seq 0 (ncols m))) (seq 0 (nrows m))
  end.

(** [np.matrix]: a rank-1 array becomes a single row. *)
Definition np_matrix (a : ndarray) : matrix :=
  match a with
  | Array1 v => {| nrows := 1; ncols := length v; entry := fun _ j => nth j v 0 |}
  | Array2 m => m
  end.

(** [m.T] *)
Definition transpose (m : matrix) : matrix :=
  {| nrows := ncols m; ncols := nrows m; entry := fun i j => entry m j i |}.

(** [np.dot] of two matrices; the shapes must be aligned. *)
Definition np_dot (a b : matrix) : outcome matrix :=
  if decide (ncols a = nrows b) then
    Ret {| nrows := nrows a; ncols := ncols b;
           entry := fun i j => sum_below (fun k => entry a i k * entry b k j) (ncols a) |}
  else Raise ValueError.

(** [m[p, q]] *)
Definition matrix_getitem (m : matrix) (p q : nat) : outcome R :=
  if decide (p < nrows m /\ q < ncols m)%nat then Ret (entry m p q) else Raise IndexError.

Definition np_mean (l : list R) : R := np_sum l / INR (length l).

(** [np.var]: the mean of the squared deviations from the mean. *)
Definition np_var (l : list R) : R :=
  np_mean (map (fun r => Rabs (r - np_mean l) ^ 2) l).

(** A float that may be [np.inf]. *)
Inductive npfloat : Type :=
| Finite (r : R)
| Inf.

(** [np.linalg.det] and [np.linalg.pinv] are numpy's and are taken as the
    parameters [det] and [pinv].  numpy computes the determinant in
    floating point and the code compares it with [0.], so the branch that
    runs is decided by the value numpy reports, not by the exact
    determinant of [J^T J].  The warning that the singular branch prints is
    not modelled. *)
Definition calculate_error_from_jacobian (det : matrix -> R) (pinv : matrix -> matrix)
    (jac : ndarray) (residuals : list R) : outcome (list npfloat) :=
  let num_params := length (np_ravel jac) in
  JtJ ← np_dot (transpose (np_matrix jac)) (np_matrix jac);
  if Req_dec_T (det JtJ) 0 then
    Ret (map (fun p => Inf) (seq 0 num_params))
  else
    JtJ' ← np_dot (transpose (np_matrix jac)) (np_matrix jac);
    let covar := pinv JtJ' in
    comprehension
      (fun p => c ← matrix_getitem covar p p;
                Ret (Finite (sqrt (c * np_var residuals)
                             / sqrt (1 * INR (length residuals)))))
      (seq 0 num_params).

(** The pseudo-inverse of a 1x1 matrix [[a]] is [[1/a]], and [[0]] when
    [a = 0]; [pinv_entrywise] is that on 1x1 matrices. *)
Definition pinv_entrywise (m : matrix) : matrix :=
  {| nrows := ncols m; ncols := nrows m; entry := fun i j => / entry m j i |}.

(** ** The global fit wrapper *)

(** A reference to a domain object: its position in the store. *)
Abbreviation ref := nat (only parsing).

(** Modelled from the spec: [core.EquilibriumDenaturationCurve] is defined
    outside [ising.py].  A curve has an identifier and the parallel
    sequences [x] and [y], of the same length; [points] pairs them up. *)
Record EquilibriumDenaturationCurve : Type := mkCurve {
  ID : string;
  points : list (R * R)
}.

Definition curve_x (c : EquilibriumDenaturationCurve) : list R := map fst (points c).
Definition curve_y (c : EquilibriumDenaturationCurve) : list R := map snd (points c).

(** What [isinstance(curve, core.EquilibriumDenaturationCurve)] tells. *)
Inductive pycurve : Type :=
| ACurve (c : EquilibriumDenaturationCurve)
| NotACurve.

(** An entry of [self.proteins]: the dict with keys ['n'], ['curve'] and
    ['partition']. *)
Record protein : Type := mkProtein {
  protein_n : nat;
  protein_curve : EquilibriumDenaturationCurve;
  protein_partition : IsingPartitionFunction ref
}.

(** The three lists of a [GlobalFitWrapper], with the store that holds the
    domain objects they refer to.  Domain objects are created by [append]
    only, and a new one is placed at the end of the store. *)
Record GlobalFitWrapper : Type := mkWrapper {
  store : list IsingDomain;
  proteins : list protein;
  domains : list ref;
  domain_types : list domain_class
}.

(** Reading the object behind a reference.  [DanglingReference] is not a
    Python exception: it marks a reference outside the store, which no
    session built by the methods below contains. *)
Definition deref (h : list IsingDomain) (r : ref) : outcome IsingDomain :=
  match h !! r with
  | Some d => Ret d
  | None => Raise DanglingReference
  end.

(** [l.index(a)] *)
Fixpoint list_index {A : Type} `{EqDecision A} (a : A) (l : list A) : outcome nat :=
  match l with
  | [] => Raise ValueError
  | b :: l' => if decide (b = a) then Ret O else i ← list_index a l'; Ret (S i)
  end.

(** [getattr(domain, p)] for the four parameter labels. *)
Definition getattr (self : IsingDomain) (p : string) : option R :=
  if String.eqb p "DG_i" then Some (DG_i self)
  else if String.eqb p "DG_ij" then Some (DG_ij self)
  else if String.eqb p "m_i" then Some (m_i self)
  else if String.eqb p "m_ij" then Some (m_ij self)
  else None.

Module GlobalFit.

Definition init : GlobalFitWrapper :=
  {| store := []; proteins := []; domains := []; domain_types := [] |}.

(** The loop of [append] over the topology, building [q_topology]. *)
Fixpoint append_loop (topology : list domain_class) (self : GlobalFitWrapper)
    (q_topology : list ref) : outcome (list ref) * GlobalFitWrapper :=
  match topology with
  | [] => (Ret q_topology, self)
  | domain :: topology' =>
      if decide (domain ∈ domain_types self) then
        match (i ← list_index domain (domain_types self); getitem (domains self) i) with
        | Ret new_domain => append_loop topology' self (q_topology ++ [new_domain])
        | Raise e => (Raise e, self)
        end
      else
        let new_domain := length (store self) in
        let self' :=
          {| store := store self ++ [IsingDomain_init domain];
             proteins := proteins self;
             domains := domains self ++ [new_domain];
             domain_types := domain_types self ++ [domain] |} in
        append_loop topology' self' (q_topology ++ [new_domain])
  end.

(** [append(curve, topology)]: the outcome and the wrapper afterwards.
    A topology is a list of the predefined domain classes, as the
    docstring asks.  The method itself does not check the entries: for a
    topology holding another callable it registers what the callable
    returns and the constructor of [IsingPartitionFunction] then raises
    TypeError.  Such topologies are not modelled, and the statements about
    [append] are about topologies of domain classes. *)
Definition append (self : GlobalFitWrapper) (curve : pycurve)
    (topology : list domain_class) : outcome unit * GlobalFitWrapper :=
  match curve with
  | NotACurve => (Raise TypeError, self)
  | ACurve c =>
      match append_loop topology self [] with
      | (Raise e, self') => (Raise e, self')
      | (Ret q_topology, self') =>
          match IsingPartitionFunction_init (AList (map AnIsingDomain q_topology)) with
          | Raise e => (Raise e, self')
          | Ret q =>
              (Ret tt,
               {| store := store self';
                  proteins := proteins self' ++
                    [{| protein_n := length q_topology;
                        protein_curve := c;
                        protein_partition := q |}];
                  domains := domains self';
                  domain_types := domain_types self' |})
          end
      end
  end.

(** The [bounds] property. *)
Definition bounds (self : GlobalFitWrapper) : outcome (list (R * R)) :=
  bs ← comprehension (fun r => domain ← deref (store self) r; bounds domain) (domains self);
  Ret (concat bs).

(** The [domain_params] property. *)
Definition domain_params (self : GlobalFitWrapper) : outcome (list string) :=
  ps ← comprehension
         (fun r => domain ← deref (store self) r;
                   ls ← labels domain;
                   Ret (map (fun l => name domain ++ " " ++ l)%string ls))
         (domains self);
  Ret (concat ps).

(** [for p in labels: setattr(domain, p, p_val.next())]: the iterator
    that is left and the store afterwards. *)
Fixpoint assign_labels (h : list IsingDomain) (r : ref) (ls : list string)
    (p_val : list R) : outcome (list R) * list IsingDomain :=
  match ls with
  | [] => (Ret p_val, h)
  | p :: ls' =>
      match p_val with
      | [] => (Raise StopIteration, h)
      | v :: p_val' =>
          match h !! r with
          | None => (Raise DanglingReference, h)
          | Some d => assign_labels (<[r := setattr d p v]> h) r ls' p_val'
          end
      end
  end.

(** [for idx, domain in enumerate(self.domains): ...] *)
Fixpoint assign_domains (h : list IsingDomain) (doms : list ref) (p_val : list R)
    : outcome (list R) * list IsingDomain :=
  match doms with
  | [] => (Ret p_val, h)
  | r :: doms' =>
      match (domain ← deref h r; labels domain) with
      | Raise e => (Raise e, h)
      | Ret ls =>
          match assign_labels h r ls p_val with
          | (Raise e, h') => (Raise e, h')
          | (Ret p_val', h') => assign_domains h' doms' p_val'
          end
      end
  end.

(** [protein['partition'].theta(den)] for an array [den], read through
    the store. *)
Definition theta_array (RT : R) (h : list IsingDomain) (q : IsingPartitionFunction ref)
    (den : list R) : outcome (list R) :=
  ds ← comprehension (deref h) (topology q);
  comprehension (theta RT {| topology := ds; n := n q |}) den.

(** [np.sum(np.abs(fit - y)**2)] *)
Definition sum_squares (fit y : list R) : R :=
  np_sum (zip_with (fun f v => Rabs (f - v) ^ 2) fit y).

(** The second loop of [__call__]. *)
Definition residual_sum (RT : R) (self : GlobalFitWrapper) : outcome R :=
  res ← comprehension
          (fun p => let den := curve_x (protein_curve p) in
                    let y := curve_y (protein_curve p) in
                    fit ← theta_array RT (store self) (protein_partition p) den;
                    Ret (sum_squares fit y))
          (proteins self);
  Ret (np_sum res).

(** [__call__(x)]: the outcome and the wrapper afterwards. *)
Definition call (RT : R) (self : GlobalFitWrapper) (x : list R)
    : outcome R * GlobalFitWrapper :=
  if decide (length (proteins self) < 1)%nat then (Raise ValueError, self)
  else
    let p_val := x in
    let '(o, h) := assign_domains (store self) (domains self) p_val in
    let self' := {| store := h; proteins := proteins self;
                    domains := domains self; domain_types := domain_types self |} in
    match o with
    | Raise e => (Raise e, self')
    | Ret _ => (residual_sum RT self', self')
    end.

(** A method call on a session. *)
Inductive op : Type :=
| Append (curve : pycurve) (topology : list domain_class)
| Call (x : list R).

Definition step (RT : R) (self : GlobalFitWrapper) (o : op) : GlobalFitWrapper :=
  match o with
  | Append curve topology => (append self curve topology).2
  | Call x => (call RT self x).2
  end.

(** The session after the calls [ops] on a new wrapper; a caller that
    catches an exception goes on with the wrapper as the call left it. *)
Definition run (RT : R) (ops : list op) : GlobalFitWrapper :=
  foldl (step RT) init ops.

(** The appends of [ops] that pass the curve check. *)
Definition appended (ops : list op) : list (EquilibriumDenaturationCurve * list domain_class) :=
  omap (fun o => match o with
                 | Append (ACurve c) t => Some (c, t)
                 | _ => None
                 end) ops.

End GlobalFit.

(** ** Residuals of a fit *)

(** The total sum of squares of the data of a curve. *)
Definition SS_tot (y_data : list R) : R :=
  np_sum (map (fun v => (v - np_mean y_data) ^ 2) y_data).

(** The loop of [calculate_fit_residuals], with its accumulators [res]
    and [r_squared].  Where [SS_tot] is 0 numpy divides by zero (and
    yields an infinity or [nan]); no statement below is about the
    R-squared of such a curve. *)
Fixpoint residuals_loop (RT : R) (h : list IsingDomain) (ps : list protein)
    (res r_squared : list R) : outcome (list R * list R) :=
  match ps with
  | [] => Ret (res, r_squared)
  | protein :: ps' =>
      let y_data := curve_y (protein_curve protein) in
      y_fit ← GlobalFit.theta_array RT h (protein_partition protein)
                (curve_x (protein_curve protein));
      let res := res ++ zip_with Rminus y_data y_fit in
      let SS_res := np_sum (map (fun r => r ^ 2) (zip_with Rminus y_data y_fit)) in
      residuals_loop RT h ps' res (r_squared ++ [1 - SS_res / SS_tot y_data])
  end.

Definition calculate_fit_residuals (RT : R) (fit_func : GlobalFitWrapper)
  : outcome (list R * list R) :=
  residuals_loop RT (store fit_func) (proteins fit_func) [] [].

(** ** Well-formed sessions *)

(** The object behind [r] is an instance of the class [c]. *)
Definition refers (h : list IsingDomain) (r : ref) (c : domain_class) : Prop :=
  cls <$> (h !! r) = Some c.

(** The registry of a session: [domains] lists the store in order of
    creation, [domain_types] lists the classes of these objects, and no
    class is registered twice. *)
Record registry_ok (s : GlobalFitWrapper) : Prop := mkRegistryOk {
  ok_domains : domains s = seq 0 (length (store s));
  ok_types : domain_types s = map cls (store s);
  ok_nodup : NoDup (domain_types s)
}.

(** The entry [p] of [proteins] records the appended pair [ct]. *)
Definition tracks (s : GlobalFitWrapper) (p : protein)
    (ct : EquilibriumDenaturationCurve * list domain_class) : Prop :=
  protein_curve p = ct.1 /\
  protein_n p = length ct.2 /\
  n (protein_partition p) = length ct.2 /\
  Forall2 (refers (store s)) (topology (protein_partition p)) ct.2.

(** The registry after one more class has been met, and after the classes
    of a list have been met in order: each class is entered where it
    first occurs. *)
Definition register (seen : list domain_class) (c : domain_class) : list domain_class :=
  if decide (c ∈ seen) then seen else seen ++ [c].

Definition registry_of (classes : list domain_class) : list domain_class :=
  foldl register [] classes.

(** What is left of a domain object when the attributes named by its
    labels are set aside: its class, its [m_ij], and its [DG_ij] when it is
    a cap. *)
Definition fixed_part (d : IsingDomain) : domain_class * R * option R :=
  (cls d, m_ij d, if is_cap d then Some (DG_ij d) else None).

(** The flat ordering of the free parameters of the objects [doms] of a
    store: for each object in order, its used variables in order. *)
Definition slots_of (h : list IsingDomain) (doms : list ref) : list (ref * nat) :=
  flat_map (fun r => match h !! r with
                     | Some d => map (fun i => (r, i)) (used_variables d)
                     | None => []
                     end) doms.

(** The flat ordering of the free parameters of a session. *)
Definition slots (self : GlobalFitWrapper) : list (ref * nat) :=
  slots_of (store self) (domains self).

(** The effect on one object of the assignment of [vs] to the labels [ls]. *)
Definition assign_fields (d : IsingDomain) (ls : list string) (vs : list R) : IsingDomain :=
  foldl (fun d lv => setattr d lv.1 lv.2) d (zip ls vs).

(** Two sample curves and a sample sequence of calls: two appends that
    share the Repeat and Cap classes, and one append that fails the curve
    check in between. *)
Definition curve_A : EquilibriumDenaturationCurve :=
  {| ID := "A"; points := [(0, 0.1); (4, 0.9)] |}.

Definition curve_B : EquilibriumDenaturationCurve :=
  {| ID := "B"; points := [(2, 0.5)] |}.

Definition sample_ops : list GlobalFit.op :=
  [GlobalFit.Append (ACurve curve_A) [RepeatDomain; CapDomain];
   GlobalFit.Append NotACurve [HelixDomain];
   GlobalFit.Append (ACurve curve_B) [CapDomain; RepeatDomain]].

(** The 2x1 matrix of zeros: two residual rows, one parameter column. *)
Definition zero_2x1 : matrix := {| nrows := 2; ncols := 1; entry := fun _ _ => 0 |}.

(** A sample value of [RT]: the gas constant in kcal/(mol K) times 298.15 K. *)
Definition RT_sample : R := 1.987204118e-3 * 298.15.

(** * Properties *)

Section TwoState.

Variable RT : R.

Lemma partition_single (d : IsingDomain) (x : R) :
  partition RT (init_topology [d]) x [] = Ret (1 + kappa RT d x).
Proof.
  unfold partition, init_topology; simpl.
  unfold q_i, q_func. destruct (cls d); simpl; f_equal; lra.
Qed.

Lemma subpartition_single (d : IsingDomain) (x : R) :
  subpartition RT (init_topology [d]) x 0 false = Ret (kappa RT d x).
Proof.
  unfold subpartition, partition, init_topology; simpl.
  unfold q_i, q_func. destruct (cls d); simpl; f_equal; lra.
Qed.

Lemma kappa_pos (d : IsingDomain) (x : R) : 0 < kappa RT d x.
Proof. apply exp_pos. Qed.

Lemma tau_pos (d : IsingDomain) (x : R) : 0 < tau RT d x.
Proof. apply exp_pos. Qed.

Lemma theta_single (d : IsingDomain) (x : R) :
  theta RT (init_topology [d]) x = Ret (1 - kappa RT d x / (1 + kappa RT d x)).
Proof.
  unfold theta. rewrite partition_single.
  change (n (init_topology [d])) with 1%nat.
  cbn [mbind outcome_bind seq comprehension].
  rewrite subpartition_single.
  cbn [mbind outcome_bind np_sum foldr INR].
  do 3 f_equal; lra.
Qed.

Lemma theta_single_unfolded (d : IsingDomain) (x : R) :
  theta RT (init_topology [d]) x = Ret (1 / (1 + kappa RT d x)).
Proof.
  rewrite theta_single. f_equal.
  pose proof (kappa_pos d x). field. lra.
Qed.

(** C1 (amended).  For a topology of exactly one domain (of any class, in
    particular a chain variant such as Repeat), [partition(x)] is
    [1 + kappa(x)] and [theta(x)] is [1 - kappa(x) / (1 + kappa(x))], which
    is [1 / (1 + kappa(x))]: the weight of the unfolded state over the
    partition sum, not [kappa(x) / (1 + kappa(x))].  At the defaults
    [DG_i = 2.0], [m_i = -0.5] and [x = 0], [theta(0)] is
    [1 / (1 + exp(-2.0/RT))]. *)
Theorem two_state_reduction (d : IsingDomain) (x : R) :
  partition RT (init_topology [d]) x [] = Ret (1 + kappa RT d x) /\
  theta RT (init_topology [d]) x = Ret (1 - kappa RT d x / (1 + kappa RT d x)) /\
  theta RT (init_topology [d]) x = Ret (1 / (1 + kappa RT d x)) /\
  theta RT (init_topology [IsingDomain_init RepeatDomain]) 0
    = Ret (1 / (1 + exp (-2.0 / RT))).
Proof.
  split; [apply partition_single|]. split; [apply theta_single|].
  split; [apply theta_single_unfolded|].
  rewrite theta_single_unfolded. do 3 f_equal.
  unfold kappa, free_energy_m; cbn [IsingDomain_init DG_i m_i]. f_equal.
  unfold Rdiv. lra.
Qed.

End TwoState.

(** At the defaults of a Repeat domain and [x = 0], [kappa] is
    [exp (-2 / RT)]. *)
Lemma kappa_default_at_0 (RT : R) :
  kappa RT (IsingDomain_init RepeatDomain) 0 = exp (-2.0 / RT).
Proof.
  unfold kappa, free_energy_m; simpl. f_equal. 
  replace (2 - -0.5 * 0) with 2.0 by lra. lra.
Qed.

(** For every [RT] between 0 and 10000, whatever the unit of energy, the
    two-state [theta(0)] of the default Repeat domain is further than 1e-9
    from [exp(-2/RT) / (1 + exp(-2/RT))]. *)
Lemma theta_single_gap (RT : R) :
  0 < RT <= 10000 ->
  exists t : R,
    theta RT (init_topology [IsingDomain_init RepeatDomain]) 0 = Ret t /\
    Rabs (t - exp (-2.0 / RT) / (1 + exp (-2.0 / RT))) > 1e-9.
Proof.
  intros [Hpos Hle]. eexists; split; [apply theta_single|].
  rewrite kappa_default_at_0.
  assert (Ha : 2e-4 <= 2 / RT).
  { assert (Hy : 0 < 2 / RT) by (apply Rdiv_lt_0_compat; lra).
    assert (He : 2 / RT * RT = 2) by (field; lra). nra. }
  assert (Hk : exp (-2.0 / RT) * (1 + 2e-4) < 1).
  { replace (-2.0 / RT) with (- (2 / RT)) by (unfold Rdiv; lra).
    rewrite exp_Ropp.
    pose proof (exp_ineq1 (2 / RT) ltac:(lra)) as He.
    pose proof (exp_pos (2 / RT)) as Hp.
    apply Rmult_lt_reg_l with (exp (2 / RT)); [exact Hp|].
    rewrite <- Rmult_assoc, Rinv_r by lra. lra. }
  pose proof (exp_pos (-2.0 / RT)) as Hp.
  set (k := exp (-2.0 / RT)) in *.
  replace (1 - k / (1 + k) - k / (1 + k)) with ((1 - k) / (1 + k)) by (field; lra).
  assert (Hq : 1e-5 < (1 - k) / (1 + k)).
  { assert (He : (1 - k) / (1 + k) * (1 + k) = 1 - k) by (field; lra). nra. }
  rewrite Rabs_pos_eq; lra.
Qed.


(** C1 (counterexample).  At the defaults of a Repeat domain, [x = 0] and
    [RT = RT_sample], [theta(0)] is further than 1e-9 from
    [exp(-2/RT) / (1 + exp(-2/RT))]. *)
Lemma two_state_theta_counterexample :
  exists t : R,
    theta RT_sample (init_topology [IsingDomain_init RepeatDomain]) 0 = Ret t /\
    Rabs (t - exp (-2.0 / RT_sample) / (1 + exp (-2.0 / RT_sample))) > 1e-9.
Proof.
  apply theta_single_gap. unfold RT_sample. lra.
Qed.

(** ** Monotonicity in the denaturant concentration *)







(** ** Bounds on theta *)

Section ThetaBounds.

Variable RT : R.

(** One step of the transfer-matrix product keeps a row vector
    non-negative, is monotone in the vector and in [folded], and keeps the
    sum of the two components positive. *)
Lemma rowmul_q_i_mono (d : IsingDomain) (x a b a' b' f f' : R) :
  0 <= a <= a' -> 0 <= b <= b' -> 0 <= f <= f' ->
  let r := rowmul (a, b) (q_i RT d x f) in
  let r' := rowmul (a', b') (q_i RT d x f') in
  (0 <= r.1 <= r'.1) /\ (0 <= r.2 <= r'.2) /\ (0 < a + b -> 0 < r.1 + r.2).
Proof.
  intros Ha Hb Hf.
  pose proof (kappa_pos RT d x) as Hk. pose proof (tau_pos RT d x) as Ht.
  assert (Hkt : 0 < kappa RT d x * tau RT d x) by now apply Rmult_lt_0_compat.
  set (k := kappa RT d x) in *. set (kt := k * tau RT d x) in *.
  assert (Hpos : forall c e, 0 < c -> 0 < e -> 0 < a + b -> 0 < a * c + b * e).
  { intros c e Hc He Hab. destruct (Rle_lt_dec a 0).
    - assert (0 < b) by lra. assert (0 < b * e) by now apply Rmult_lt_0_compat. nra.
    - assert (0 < a * c) by now apply Rmult_lt_0_compat. nra. }
  unfold q_i, q_func; destruct (cls d); cbn [rowmul fst snd]; fold k; fold kt;
    (split; [nra | split; [nra |]]); intros Hab.
  all: first [ pose proof (Hpos kt k Hkt Hk Hab) | pose proof (Hpos k k Hk Hk Hab) ]; nra.
Qed.

Lemma partition_loop_mono (topo : list IsingDomain) (x : R) (f f' : list R) :
  (forall j : nat, (j < length topo)%nat ->
     exists a b : R, f !! j = Some a /\ f' !! j = Some b /\ 0 <= a <= b) ->
  forall (k i : nat) (q q' : rowvec),
    (i + k = length topo)%nat ->
    0 <= q.1 <= q'.1 -> 0 <= q.2 <= q'.2 ->
    exists r r' : rowvec,
      partition_loop RT (init_topology topo) x f q (seq i k) = Ret r /\
      partition_loop RT (init_topology topo) x f' q' (seq i k) = Ret r' /\
      (0 <= r.1 <= r'.1) /\ (0 <= r.2 <= r'.2) /\
      (0 < q.1 + q.2 -> 0 < r.1 + r.2).
Proof.
  intros Hf k. induction k as [|k IH]; intros i q q' Hik H1 H2.
  - exists q, q'. cbn. auto.
  - destruct (lookup_lt_is_Some_2 topo i ltac:(lia)) as [d Hd].
    destruct (Hf i ltac:(lia)) as (a & b & Ha & Hb & Hab).
    destruct q as [q1 q2], q' as [q1' q2'].
    destruct (rowmul_q_i_mono d x q1 q2 q1' q2' a b H1 H2 Hab) as (M1 & M2 & M3).
    destruct (IH (S i) _ _ ltac:(lia) M1 M2) as (r & r' & E & E' & B1 & B2 & B3).
    exists r, r'.
    cbn [seq partition_loop]. unfold getitem. cbn [topology init_topology].
    rewrite Hd, Ha, Hb. cbn [mbind outcome_bind].
    repeat split; try (first [exact E | exact E' | apply B1 | apply B2]).
    intros Hq. apply B3, M3, Hq.
Qed.

Lemma ones_lookup (k j : nat) : (j < k)%nat -> ones k !! j = Some 1.
Proof. intros H. unfold ones. now apply lookup_replicate_2. Qed.

Lemma ones_length (k : nat) : length (ones k) = k.
Proof. apply length_replicate. Qed.

(** The full partition sum of a non-empty chain is positive. *)
Lemma partition_pos (d : IsingDomain) (ds : list IsingDomain) (x : R) :
  exists q_n : R, partition RT (init_topology (d :: ds)) x [] = Ret q_n /\ 0 < q_n.
Proof.
  set (topo := d :: ds).
  destruct (partition_loop_mono topo x (ones (length topo)) (ones (length topo)))
    with (k := length topo) (i := 0%nat) (q := (0, 1)) (q' := (0, 1))
    as (r & r' & E & _ & B1 & B2 & B3); cbn [fst snd]; try lra; try lia.
  { intros j Hj. exists 1, 1. rewrite ones_lookup by lia. repeat split; lra. }
  exists (r.1 * 1 + r.2 * 1). unfold partition.
  change (n (init_topology topo)) with (length topo).
  cbn [length decide]. rewrite decide_True by reflexivity.
  change (S (length ds)) with (length topo). rewrite E.
  split; [reflexivity|]. cbn [fst snd] in B3. specialize (B3 ltac:(lra)). lra.
Qed.

(** A sub-partition sum lies between 0 and the full partition sum. *)
Lemma subpartition_bounds (topo : list IsingDomain) (x : R) (i : nat) (q_n : R) :
  (i < length topo)%nat ->
  partition RT (init_topology topo) x [] = Ret q_n ->
  exists s : R,
    subpartition RT (init_topology topo) x i false = Ret s /\ 0 <= s <= q_n.
Proof.
  intros Hi Hq.
  destruct (partition_loop_mono topo x (<[i := 0]> (ones (length topo))) (ones (length topo)))
    with (k := length topo) (i := 0%nat) (q := (0, 1)) (q' := (0, 1))
    as (r & r' & E & E' & B1 & B2 & _); cbn [fst snd]; try lra; try lia.
  { intros j Hj. destruct (decide (i = j)) as [->|Hne].
    - exists 0, 1. rewrite list_lookup_insert_eq by (rewrite ones_length; lia).
      rewrite ones_lookup by lia. repeat split; lra.
    - exists 1, 1. rewrite list_lookup_insert_ne by exact Hne.
      rewrite ones_lookup by lia. repeat split; lra. }
  unfold partition in Hq. change (n (init_topology topo)) with (length topo) in Hq.
  rewrite decide_True in Hq by reflexivity. rewrite E' in Hq.
  cbn [mbind outcome_bind] in Hq. injection Hq as <-.
  exists (r.1 * 1 + r.2 * 1). split; [|lra].
  unfold subpartition. change (n (init_topology topo)) with (length topo).
  rewrite decide_True by exact Hi. cbn [mbind outcome_bind].
  unfold partition. change (n (init_topology topo)) with (length topo).
  rewrite decide_False by (rewrite length_insert, ones_length; lia).
  rewrite E. reflexivity.
Qed.

Lemma comprehension_Forall {A B : Type} (f : A -> outcome B) (P : B -> Prop) (l : list A) :
  (forall a : A, a ∈ l -> exists b : B, f a = Ret b /\ P b) ->
  exists bs : list B,
    comprehension f l = Ret bs /\ Forall P bs /\ length bs = length l.
Proof.
  induction l as [|a l IH]; intros H.
  - exists []. cbn. auto.
  - destruct (H a ltac:(left)) as (b & Eb & Pb).
    destruct IH as (bs & Ebs & Pbs & Lbs).
    { intros a' Ha'. apply H. now right. }
    exists (b :: bs). cbn [comprehension]. rewrite Eb. cbn [mbind outcome_bind].
    rewrite Ebs. cbn. auto.
Qed.

Lemma np_sum_bounds (q : R) (l : list R) :
  Forall (fun s => 0 <= s <= q) l -> 0 <= np_sum l <= INR (length l) * q.
Proof.
  induction 1 as [|s l Hs _ IH]; cbn [np_sum foldr length].
  - cbn. lra.
  - fold (np_sum l). rewrite S_INR. lra.
Qed.

Lemma theta_bounds_nonempty (d : IsingDomain) (ds : list IsingDomain) (x : R) :
  exists t : R, theta RT (init_topology (d :: ds)) x = Ret t /\ 0 <= t <= 1.
Proof.
  destruct (partition_pos d ds x) as (q_n & Eq & Hq).
  set (topo := d :: ds) in *.
  destruct (comprehension_Forall
              (fun i => subpartition RT (init_topology topo) x i false)
              (fun s => 0 <= s <= q_n) (seq 0 (length topo)))
    as (subs & Es & Ps & Ls).
  { intros i Hi. apply elem_of_seq in Hi.
    apply subpartition_bounds; [lia | exact Eq]. }
  rewrite length_seq in Ls.
  pose proof (np_sum_bounds q_n subs Ps) as Hsum. rewrite Ls in Hsum.
  assert (Hn : 0 < INR (length topo)) by (apply lt_0_INR; cbn; lia).
  assert (Hden : 0 < INR (length topo) * q_n) by now apply Rmult_lt_0_compat.
  exists (1 - np_sum subs / (INR (length topo) * q_n)).
  unfold theta. rewrite Eq. cbn [mbind outcome_bind].
  change (n (init_topology topo)) with (length topo). rewrite Es.
  split; [reflexivity|].
  assert (0 <= np_sum subs / (INR (length topo) * q_n) <= 1); [|lra].
  split.
  - apply Rmult_le_pos; [lra | left; now apply Rinv_0_lt_compat].
  - apply Rmult_le_reg_r with (INR (length topo) * q_n); [exact Hden|].
    unfold Rdiv. rewrite Rmult_assoc, Rinv_l by lra. lra.
Qed.

(** C4 (amended).  Computed in exact real arithmetic, for every non-empty
    topology, whatever the parameter values of its domains, and every real
    [x], [theta(x)] returns a value in [0, 1].  In binary64 the bound can
    fail by overflow: see the counterexample below. *)
Theorem theta_in_unit_interval (d : IsingDomain) (ds : list IsingDomain) (x : R) :
  exists t : R, theta RT (init_topology (d :: ds)) x = Ret t /\ 0 <= t <= 1.
Proof. exact (theta_bounds_nonempty d ds x). Qed.

(** [theta] returns on every topology, also on the empty one. *)
Lemma theta_returns (ds : list IsingDomain) (x : R) :
  exists t : R, theta RT (init_topology ds) x = Ret t.
Proof.
  destruct ds as [|d ds].
  - eexists. reflexivity.
  - destruct (theta_bounds_nonempty d ds x) as (t & E & _). now exists t.
Qed.

End ThetaBounds.

(** ** Bounds on theta in binary64 *)

Lemma comprehension_total {A B : Type} (f : A -> outcome B) (g : A -> B) (l : list A) :
  (forall a : A, a ∈ l -> f a = Ret (g a)) ->
  comprehension f l = Ret (map g l).
Proof.
  induction l as [|a l IH]; intros H; [reflexivity|].
  cbn [comprehension map]. rewrite (H a) by left. cbn [mbind outcome_bind].
  rewrite IH by (intros a' Ha'; apply H; now right). reflexivity.
Qed.

Section ThetaOverflow.

Variable np_exp : float -> float.
Variable RT : float.

(** On a chain of copies of one domain, the loop of [partition] is a fold
    over the folded vector. *)
Lemma partition_loop_replicate (d : Binary64.IsingDomain) (x : float) (k0 : nat)
    (M : float -> Binary64.matrix2) :
  (forall f : float, Binary64.q_i np_exp RT d x f = M f) ->
  forall (k i : nat) (q : Binary64.rowvec) (pre fs : list float),
    (i + k <= k0)%nat -> length pre = i -> (k <= length fs)%nat ->
    Binary64.partition_loop np_exp RT (init_topology (replicate k0 d)) x (pre ++ fs) q (seq i k)
    = Ret (foldl (fun q f => Binary64.rowmul q (M f)) q (take k fs)).
Proof.
  intros HM k. induction k as [|k IH]; intros i q pre fs Hik Hpre Hfs; [reflexivity|].
  destruct fs as [|f fs]; [cbn in Hfs; lia|].
  cbn [seq Binary64.partition_loop take foldl]. unfold getitem.
  cbn [topology init_topology].
  rewrite lookup_replicate_2 by lia.
  rewrite lookup_app_r by lia. replace (i - length pre)%nat with 0%nat by lia.
  cbn [lookup list_lookup mbind outcome_bind]. rewrite HM.
  replace (pre ++ f :: fs) with ((pre ++ [f]) ++ fs) by now rewrite <- app_assoc.
  apply IH; [lia | rewrite length_app; cbn; lia | cbn in Hfs; lia].
Qed.

Lemma partition_replicate (d : Binary64.IsingDomain) (x : float) (k : nat)
    (M : float -> Binary64.matrix2) (folded : list float) :
  (forall f : float, Binary64.q_i np_exp RT d x f = M f) ->
  length folded = k -> k <> 0%nat ->
  Binary64.partition np_exp RT (init_topology (replicate k d)) x folded
  = Ret (let q := foldl (fun q f => Binary64.rowmul q (M f)) (0, 1)%float folded in
         (fst q * 1 + snd q * 1)%float).
Proof.
  intros HM Hlen Hk. unfold Binary64.partition.
  cbn [n init_topology]. rewrite length_replicate.
  rewrite decide_False by lia.
  rewrite (partition_loop_replicate d x k M HM k 0 _ [] folded) by (cbn; lia).
  now rewrite <- Hlen, firstn_all.
Qed.

Lemma theta_replicate (d : Binary64.IsingDomain) (x : float) (k : nat)
    (M : float -> Binary64.matrix2) :
  (forall f : float, Binary64.q_i np_exp RT d x f = M f) ->
  k <> 0%nat ->
  Binary64.theta np_exp RT (init_topology (replicate k d)) x
  = Ret (let Z := fun folded =>
                    let q := foldl (fun q f => Binary64.rowmul q (M f)) (0, 1)%float folded in
                    (fst q * 1 + snd q * 1)%float in
         let sum_q_i :=
           Binary64.np_sum (map (fun i => Z (<[i := 0%float]> (Binary64.ones k))) (seq 0 k)) in
         (1 - sum_q_i / (Binary64.float_of_nat k * Z (Binary64.ones k)))%float).
Proof.
  intros HM Hk. unfold Binary64.theta.
  assert (E0 : Binary64.partition np_exp RT (init_topology (replicate k d)) x []
               = Binary64.partition np_exp RT (init_topology (replicate k d)) x
                   (Binary64.ones k)).
  { unfold Binary64.partition. cbn [n init_topology length]. rewrite length_replicate.
    rewrite decide_True by reflexivity.
    now destruct (decide (length (Binary64.ones k) = 0%nat)). }
  rewrite E0, (partition_replicate d x k M _ HM) by
    (try exact Hk; unfold Binary64.ones; apply length_replicate).
  cbn [mbind outcome_bind]. cbn [n init_topology]. rewrite length_replicate.
  rewrite (comprehension_total _
             (fun i => let q := foldl (fun q f => Binary64.rowmul q (M f)) (0, 1)%float
                                  (<[i := 0%float]> (Binary64.ones k)) in
                       (fst q * 1 + snd q * 1)%float)).
  - reflexivity.
  - intros i Hi. apply elem_of_seq in Hi. unfold Binary64.subpartition.
    cbn [n init_topology]. rewrite length_replicate.
    rewrite decide_True by lia. cbn [mbind outcome_bind].
    apply partition_replicate; [exact HM | | exact Hk].
    rewrite length_insert. unfold Binary64.ones. apply length_replicate.
Qed.

End ThetaOverflow.

(** C4 (counterexample).  A chain of 1025 Repeat domains with
    [DG_i = DG_ij = 0], values within [ACCEPTABLE_BOUNDS], at [x = 0]:
    every [kappa] and [tau] is [exp(-0.) = 1], so every configuration has
    weight 1 and the partition sum is [2^1025], more than the largest
    binary64 number.  The partition sum and every sub-partition are
    [infinity], and [theta] is [1 - infinity / infinity], which is [nan]
    and not in [0, 1]. *)
Lemma theta_overflow_counterexample :
  Binary64.in_bounds Binary64.flat_domain = true /\
  Binary64.in_unit_interval nan = false /\
  forall np_exp : float -> float,
    np_exp (-0)%float = 1%float ->
    Binary64.theta np_exp Binary64.RT_sample
      (init_topology (replicate 1025 Binary64.flat_domain)) 0%float
    = Ret nan.
Proof.
  split; [reflexivity|]. split; [reflexivity|].
  intros np_exp H.
  rewrite (theta_replicate np_exp Binary64.RT_sample Binary64.flat_domain 0%float 1025
             (fun f => ((1, f), (1, f))%float)); [|  | discriminate].
  - vm_compute. reflexivity.
  - intros f. unfold Binary64.q_i, Binary64.q_func. cbn [Binary64.cls Binary64.flat_domain].
    change (Binary64.kappa np_exp Binary64.RT_sample Binary64.flat_domain 0%float)
      with (np_exp (-0)%float).
    change (Binary64.tau np_exp Binary64.RT_sample Binary64.flat_domain 0%float)
      with (np_exp (-0)%float).
    rewrite H. reflexivity.
Qed.

(** ** The interface m-value is not read *)

Section InterfaceM.

Variable RT : R.

Lemma q_i_setattr_m_ij (d : IsingDomain) (v x f : R) :
  q_i RT (setattr d "m_ij" v) x f = q_i RT d x f.
Proof. reflexivity. Qed.

Lemma getitem_map {A B : Type} (h : A -> B) (l : list A) (i : nat) :
  getitem (map h l) i = match getitem l i with Ret a => Ret (h a) | Raise e => Raise e end.
Proof.
  unfold getitem. change (map h l) with (h <$> l).
  rewrite list_lookup_fmap. now destruct (l !! i).
Qed.

Lemma partition_loop_m_ij (g : IsingDomain -> R) (topo : list IsingDomain) (k : nat)
    (x : R) (folded : list R) (range : list nat) (q : rowvec) :
  partition_loop RT (mkPartition (map (fun d => setattr d "m_ij" (g d)) topo) k)
    x folded q range
  = partition_loop RT (mkPartition topo k) x folded q range.
Proof.
  revert q. induction range as [|i range IH]; intros q; [reflexivity|].
  cbn [partition_loop topology]. rewrite getitem_map.
  destruct (getitem topo i) as [d|e]; [|reflexivity].
  cbn [mbind outcome_bind]. destruct (getitem folded i) as [f|e]; [|reflexivity].
  cbn [mbind outcome_bind]. rewrite q_i_setattr_m_ij. apply IH.
Qed.

Lemma partition_m_ij (g : IsingDomain -> R) (topo : list IsingDomain) (x : R)
    (folded : list R) :
  partition RT (init_topology (map (fun d => setattr d "m_ij" (g d)) topo)) x folded
  = partition RT (init_topology topo) x folded.
Proof.
  unfold partition, init_topology. cbn [n]. rewrite length_map.
  now rewrite partition_loop_m_ij.
Qed.

Lemma comprehension_ext {A B : Type} (f f' : A -> outcome B) (l : list A) :
  (forall a : A, f a = f' a) -> comprehension f l = comprehension f' l.
Proof.
  intros H. induction l as [|a l IH]; [reflexivity|].
  cbn [comprehension]. now rewrite H, IH.
Qed.

Lemma subpartition_m_ij (g : IsingDomain -> R) (topo : list IsingDomain) (x : R)
    (i : nat) (rev : bool) :
  subpartition RT (init_topology (map (fun d => setattr d "m_ij" (g d)) topo)) x i rev
  = subpartition RT (init_topology topo) x i rev.
Proof.
  unfold subpartition.
  change (n (init_topology (map (fun d => setattr d "m_ij" (g d)) topo)))
    with (length (map (fun d => setattr d "m_ij" (g d)) topo)).
  change (n (init_topology topo)) with (length topo). rewrite length_map.
  destruct (decide (i < length topo)%nat); [|reflexivity].
  cbn [mbind outcome_bind]. apply partition_m_ij.
Qed.

Lemma theta_m_ij (g : IsingDomain -> R) (topo : list IsingDomain) (x : R) :
  theta RT (init_topology (map (fun d => setattr d "m_ij" (g d)) topo)) x
  = theta RT (init_topology topo) x.
Proof.
  unfold theta. rewrite partition_m_ij.
  rewrite (comprehension_ext _ (fun i => subpartition RT (init_topology topo) x i false))
    by (intros i; apply subpartition_m_ij).
  change (n (init_topology (map (fun d => setattr d "m_ij" (g d)) topo)))
    with (length (map (fun d => setattr d "m_ij" (g d)) topo)).
  change (n (init_topology topo)) with (length topo). now rewrite length_map.
Qed.

(** C8.  For every domain and real [x], [kappa(x)] is
    [exp(-(DG_i - m_i x)/RT)] and [tau(x)] is [exp(-DG_ij/RT)]; overwriting
    the [m_ij] attribute of a domain, or of every domain of a topology (by
    any values [g]), changes neither [kappa], [tau], [q_i], [partition] nor
    [theta]. *)
Theorem m_ij_never_read (d : IsingDomain) (v x f : R) (g : IsingDomain -> R)
    (topo : list IsingDomain) (folded : list R) :
  kappa RT d x = exp (- (DG_i d - m_i d * x) / RT) /\
  tau RT d x = exp (- DG_ij d / RT) /\
  kappa RT (setattr d "m_ij" v) x = kappa RT d x /\
  tau RT (setattr d "m_ij" v) x = tau RT d x /\
  q_i RT (setattr d "m_ij" v) x f = q_i RT d x f /\
  partition RT (init_topology (map (fun d => setattr d "m_ij" (g d)) topo)) x folded
    = partition RT (init_topology topo) x folded /\
  theta RT (init_topology (map (fun d => setattr d "m_ij" (g d)) topo)) x
    = theta RT (init_topology topo) x.
Proof.
  repeat split; try reflexivity.
  - apply partition_m_ij.
  - apply theta_m_ij.
Qed.

End InterfaceM.

(** [setattr] with the label ["m_ij"] writes the [m_ij] field and nothing
    else. *)
Lemma setattr_m_ij_fields (d : IsingDomain) (v : R) :
  setattr d "m_ij" v =
  {| cls := cls d; DG_i := DG_i d; DG_ij := DG_ij d; m_i := m_i d; m_ij := v |}.
Proof. reflexivity. Qed.

(** ** Construction of a partition function *)

Lemma check_domains_rejects {D : Type} (l : list (pyelem D)) :
  NotAnIsingDomain ∈ l -> check_domains l = Raise TypeError.
Proof.
  induction l as [|e l IH]; intros H.
  - now apply elem_of_nil in H.
  - destruct e as [d|]; [|reflexivity].
    apply elem_of_cons in H as [H|H]; [discriminate|].
    cbn [check_domains]. now rewrite IH.
Qed.

Lemma check_domains_accepts {D : Type} (ds : list D) :
  check_domains (map AnIsingDomain ds) = Ret ds.
Proof.
  induction ds as [|d ds IH]; [reflexivity|].
  cbn [map check_domains]. now rewrite IH.
Qed.

(** C6 (amended).  Constructing a partition function from a list with an
    element that is not an IsingDomain, or from something that is not a
    list, raises TypeError; from a list of domains it succeeds, and so it
    does from the empty list, which gives a partition function with
    [n = 0]. *)
Theorem constructor_outcome (D : Type) (l : list (pyelem D)) (ds : list D) :
  (NotAnIsingDomain ∈ l -> IsingPartitionFunction_init (AList l) = Raise TypeError) /\
  IsingPartitionFunction_init (@NotAList D) = Raise TypeError /\
  IsingPartitionFunction_init (AList (map AnIsingDomain ds)) = Ret (init_topology ds) /\
  IsingPartitionFunction_init (@AList D []) = Ret {| topology := []; n := 0 |}.
Proof.
  repeat split.
  - intros H. unfold IsingPartitionFunction_init. now rewrite check_domains_rejects.
  - unfold IsingPartitionFunction_init. now rewrite check_domains_accepts.
Qed.

(** C6 (counterexample).  The constructor accepts the empty list. *)
Lemma empty_topology_counterexample :
  IsingPartitionFunction_init (@AList IsingDomain []) <> Raise TypeError /\
  exists q : IsingPartitionFunction IsingDomain,
    IsingPartitionFunction_init (AList []) = Ret q /\ n q = 0%nat.
Proof.
  split; [discriminate|]. eexists; split; reflexivity.
Qed.

(** ** Standard errors from the Jacobian *)

Lemma ravel_length_matrix (m : matrix) :
  length (np_ravel (Array2 m)) = (nrows m * ncols m)%nat.
Proof.
  cbn [np_ravel]. generalize 0%nat at 2.
  induction (nrows m) as [|k IH]; intros s; [reflexivity|].
  cbn [seq flat_map]. rewrite length_app, length_map, length_seq, IH. lia.
Qed.

Lemma map_const_replicate {A B : Type} (b : B) (l : list A) :
  map (fun _ => b) l = replicate (length l) b.
Proof. induction l as [|a l IH]; [reflexivity|]. cbn. now rewrite IH. Qed.

Lemma ravel_length (jac : ndarray) :
  length (np_ravel jac) = (nrows (np_matrix jac) * ncols (np_matrix jac))%nat.
Proof.
  destruct jac as [v|m]; [cbn [np_ravel np_matrix nrows ncols]; lia|].
  apply ravel_length_matrix.
Qed.

(** A comprehension raises what its body raises first. *)
Lemma comprehension_raises {A B : Type} (f : A -> outcome B) (l1 l2 : list A) (a : A)
    (e : exn) :
  (forall a' : A, a' ∈ l1 -> exists b : B, f a' = Ret b) ->
  f a = Raise e ->
  comprehension f (l1 ++ a :: l2) = Raise e.
Proof.
  intros H Ha. induction l1 as [|a1 l1 IH]; cbn [app comprehension].
  - now rewrite Ha.
  - destruct (H a1 ltac:(left)) as [b ->]. cbn [mbind outcome_bind].
    rewrite IH by (intros a' Ha'; apply H; now right). reflexivity.
Qed.

(** [J^T J] is defined for every [J], and is square of the size of the
    columns of [J]. *)
Lemma JtJ_defined (J : matrix) :
  np_dot (transpose J) J
  = Ret {| nrows := ncols J; ncols := ncols J;
           entry := fun i j => sum_below (fun k => entry J k i * entry J k j) (nrows J) |}.
Proof.
  unfold np_dot. cbn [transpose nrows ncols entry].
  now rewrite decide_True by reflexivity.
Qed.

(** C7 (amended).  Whatever values numpy's determinant and pseudo-inverse
    take, for every Jacobian [J] (a rank-1 array is a single row) and all
    residuals: the list has one entry per entry of [J], rows times columns,
    which is the number of columns for a single row only.  If the
    determinant reported for [J^T J] is 0, every entry is [+infinity] and
    nothing is raised.  Otherwise, with a pseudo-inverse of the shape of
    [J^T J]: for a single row and at least one residual the entry for
    parameter [p] is [sqrt(covar[p,p] * var(residuals) / N)]; for two rows
    or more (and at least one column) the index [p] runs past the
    covariance matrix and IndexError is raised; for a [J] without entries
    the list is empty. *)
Theorem error_from_jacobian (det : matrix -> R) (pinv : matrix -> matrix)
    (jac : ndarray) (residuals : list R) :
  exists JtJ : matrix,
    np_dot (transpose (np_matrix jac)) (np_matrix jac) = Ret JtJ /\
    nrows JtJ = ncols (np_matrix jac) /\ ncols JtJ = ncols (np_matrix jac) /\
    (det JtJ = 0 ->
     calculate_error_from_jacobian det pinv jac residuals
     = Ret (replicate (nrows (np_matrix jac) * ncols (np_matrix jac)) Inf)) /\
    (det JtJ <> 0 ->
     nrows (pinv JtJ) = nrows JtJ /\ ncols (pinv JtJ) = ncols JtJ ->
     (nrows (np_matrix jac) = 1%nat -> residuals <> [] ->
      calculate_error_from_jacobian det pinv jac residuals
      = Ret (map (fun p => Finite (sqrt (entry (pinv JtJ) p p * np_var residuals
                                         / INR (length residuals))))
                 (seq 0 (ncols (np_matrix jac))))) /\
     ((1 < nrows (np_matrix jac))%nat -> (0 < ncols (np_matrix jac))%nat ->
      calculate_error_from_jacobian det pinv jac residuals = Raise IndexError) /\
     ((nrows (np_matrix jac) * ncols (np_matrix jac) = 0)%nat ->
      calculate_error_from_jacobian det pinv jac residuals = Ret [])).
Proof.
  pose proof (ravel_length jac) as Hlen.
  unfold calculate_error_from_jacobian. rewrite Hlen, JtJ_defined.
  cbn [mbind outcome_bind].
  eexists; split; [reflexivity|].
  set (J := np_matrix jac) in *.
  set (JtJ := {| nrows := ncols J |}).
  split; [reflexivity|]. split; [reflexivity|]. split.
  - intros Hdet. destruct (Req_dec_T (det JtJ) 0) as [_|Hne]; [|contradiction].
    now rewrite map_const_replicate, length_seq.
  - intros Hdet [Hr Hc]. cbn [JtJ nrows ncols] in Hr, Hc.
    destruct (Req_dec_T (det JtJ) 0) as [He|_]; [contradiction|].
    split; [|split].
    + intros Hrow Hres. rewrite Hrow, Nat.mul_1_l.
      apply comprehension_total. intros p Hp. apply elem_of_seq in Hp.
      unfold matrix_getitem.
      rewrite decide_True by (rewrite Hr, Hc; lia).
      cbn [mbind outcome_bind]. do 2 f_equal.
      assert (HN : 0 < INR (length residuals)).
      { apply lt_0_INR. destruct residuals; [contradiction | cbn; lia]. }
      rewrite Rmult_1_l. symmetry. now apply sqrt_div_alt.
    + intros Hrow Hcol.
      assert (E : (nrows J * ncols J = ncols J + S (nrows J * ncols J - ncols J - 1))%nat)
        by nia.
      rewrite E, seq_app. cbn [seq].
      apply comprehension_raises.
      * intros p Hp. apply elem_of_seq in Hp. unfold matrix_getitem.
        rewrite decide_True by (rewrite Hr, Hc; lia).
        cbn [mbind outcome_bind]. eexists; reflexivity.
      * unfold matrix_getitem. rewrite decide_False by (rewrite Hr; lia). reflexivity.
    + intros ->. reflexivity.
Qed.

(** A gradient with one entry, 2, and residuals 1 and 3: [J^T J = [[4]]],
    whose determinant is its entry; the covariance is [[1/4]], and the
    variance of the residuals is 1. *)
Example error_of_one_parameter :
  calculate_error_from_jacobian (fun m => entry m 0 0) pinv_entrywise (Array1 [2]) [1; 3]
  = Ret [Finite (sqrt (/ 4 * 1) / sqrt 2)].
Proof.
  unfold calculate_error_from_jacobian. rewrite JtJ_defined.
  cbn [np_matrix nrows ncols entry mbind outcome_bind].
  destruct (Req_dec_T _ 0) as [He|_].
  - exfalso. cbn in He. lra.
  - cbn [np_ravel length seq comprehension]. unfold matrix_getitem.
    rewrite decide_True by (cbn; lia). cbn [mbind outcome_bind].
    assert (Hv : np_var [1; 3] = 1).
    { unfold np_var, np_mean. cbn [map np_sum foldr length INR].
      replace ((1 + (3 + 0)) / (1 + 1)) with 2 by lra.
      replace (1 - 2) with (- 1) by lra. replace (3 - 2) with 1 by lra.
      rewrite !pow2_abs. lra. }
    rewrite Hv. cbn.
    replace (0 + 2 * 2) with 4 by lra. replace (1 * (1 + 1)) with 2 by lra.
    reflexivity.
Qed.

(** C7 (counterexample).  The 2x1 Jacobian of zeros has one column, and
    [J^T J] is the 1x1 matrix of zero.  Whenever the determinant reported
    for it is 0, the function returns two infinities: one per entry of
    [J], not one per column (the pseudo-inverse is not called on this
    branch). *)
Lemma error_length_counterexample :
  ncols (np_matrix (Array2 zero_2x1)) = 1%nat /\
  exists JtJ : matrix,
    np_dot (transpose (np_matrix (Array2 zero_2x1))) (np_matrix (Array2 zero_2x1))
    = Ret JtJ /\
    nrows JtJ = 1%nat /\ ncols JtJ = 1%nat /\ entry JtJ 0 0 = 0 /\
    forall (det : matrix -> R) (pinv : matrix -> matrix),
      det JtJ = 0 ->
      calculate_error_from_jacobian det pinv (Array2 zero_2x1) [1; 3] = Ret [Inf; Inf].
Proof.
  split; [reflexivity|].
  eexists. split; [apply JtJ_defined|].
  split; [reflexivity|]. split; [reflexivity|]. split; [cbn; lra|].
  intros det pinv Hdet. unfold calculate_error_from_jacobian. rewrite JtJ_defined.
  cbn [mbind outcome_bind].
  destruct (Req_dec_T _ 0) as [_|Hne]; [reflexivity | contradiction].
Qed.

(** ** The registry of domain objects *)

Lemma cls_setattr (d : IsingDomain) (p : string) (v : R) : cls (setattr d p v) = cls d.
Proof. unfold setattr. repeat (destruct (String.eqb _ _); [reflexivity|]). reflexivity. Qed.

Lemma list_index_elem {A : Type} `{EqDecision A} (a : A) (l : list A) :
  a ∈ l -> exists i : nat, list_index a l = Ret i /\ l !! i = Some a.
Proof.
  induction l as [|b l IH]; intros H.
  - now apply elem_of_nil in H.
  - cbn [list_index]. destruct (decide (b = a)) as [->|Hne].
    + exists 0%nat. split; reflexivity.
    + apply elem_of_cons in H as [H|H]; [congruence|].
      destruct (IH H) as (i & Ei & Li). exists (S i). rewrite Ei. split; [reflexivity | exact Li].
Qed.

Lemma refers_app (h ext : list IsingDomain) (r : ref) (c : domain_class) :
  refers h r c -> refers (h ++ ext) r c.
Proof.
  unfold refers. destruct (h !! r) as [d|] eqn:E; [|discriminate].
  intros H. now rewrite (lookup_app_l_Some _ _ _ _ E).
Qed.

Lemma refers_classes (h h' : list IsingDomain) (r : ref) (c : domain_class) :
  map cls h' = map cls h -> refers h r c -> refers h' r c.
Proof.
  unfold refers. intros E. rewrite <- !list_lookup_fmap.
  change (cls <$> h') with (map cls h'). change (cls <$> h) with (map cls h).
  now rewrite E.
Qed.

Lemma registry_ok_init : registry_ok GlobalFit.init.
Proof. split; [reflexivity | reflexivity | constructor]. Qed.

Lemma append_loop_spec (topology : list domain_class) :
  forall (s : GlobalFitWrapper) (q0 : list ref),
    registry_ok s ->
    exists (s' : GlobalFitWrapper) (q : list ref),
      GlobalFit.append_loop topology s q0 = (Ret (q0 ++ q), s') /\
      registry_ok s' /\
      proteins s' = proteins s /\
      (exists ext, store s' = store s ++ ext) /\
      Forall2 (refers (store s')) q topology.
Proof.
  induction topology as [|domain topology IH]; intros s q0 Hs.
  - exists s, []. cbn. rewrite app_nil_r. repeat split; try apply Hs.
    + exists []. now rewrite app_nil_r.
    + constructor.
  - cbn [GlobalFit.append_loop]. destruct (decide (domain ∈ domain_types s)) as [Hin|Hnin].
    + destruct (list_index_elem _ _ Hin) as (i & Ei & Li). rewrite Ei.
      cbn [mbind outcome_bind]. unfold getitem.
      assert (Hi : (i < length (store s))%nat).
      { apply lookup_lt_Some in Li. rewrite (ok_types s Hs), length_map in Li. exact Li. }
      rewrite (ok_domains s Hs), (lookup_seq_lt _ _ _ Hi). cbn [Nat.add].
      destruct (IH s (q0 ++ [i]) Hs) as (s' & q & E & Hs' & Hp & [ext Hext] & Hq).
      exists s', (i :: q).
      split; [etransitivity; [exact E|]; now rewrite <- app_assoc|].
      repeat split; try apply Hs'; try exact Hp.
      * now exists ext.
      * constructor; [|exact Hq]. rewrite Hext. apply refers_app.
        unfold refers. rewrite (ok_types s Hs) in Li.
        change (map cls (store s)) with (cls <$> store s) in Li.
        now rewrite list_lookup_fmap in Li.
    + set (s1 := {| store := store s ++ [IsingDomain_init domain] |}).
      assert (Hs1 : registry_ok s1).
      { split; cbn [s1 store domains domain_types].
        - rewrite length_app. cbn [length]. rewrite Nat.add_1_r, seq_S.
          now rewrite (ok_domains s Hs).
        - rewrite map_app. cbn [map IsingDomain_init cls]. now rewrite (ok_types s Hs).
        - apply NoDup_app. split; [apply Hs|]. split; [|apply NoDup_singleton].
          intros c Hc Hc'. apply list_elem_of_singleton in Hc'. now subst. }
      destruct (IH s1 (q0 ++ [length (store s)]) Hs1) as (s' & q & E & Hs' & Hp & [ext Hext] & Hq).
      exists s', (length (store s) :: q).
      split; [etransitivity; [exact E|]; now rewrite <- app_assoc|].
      repeat split; try apply Hs'; try exact Hp.
      * exists ([IsingDomain_init domain] ++ ext). rewrite Hext. cbn [s1 store].
        now rewrite <- app_assoc.
      * constructor; [|exact Hq]. rewrite Hext. apply refers_app.
        unfold refers. cbn [s1 store]. now rewrite list_lookup_middle.
Qed.

(** An append with a curve succeeds, keeps the registry well-formed and
    adds one entry to [proteins]. *)
Lemma append_spec (s : GlobalFitWrapper) (c : EquilibriumDenaturationCurve)
    (t : list domain_class) :
  registry_ok s ->
  exists (s' : GlobalFitWrapper) (p : protein),
    GlobalFit.append s (ACurve c) t = (Ret tt, s') /\
    registry_ok s' /\
    proteins s' = proteins s ++ [p] /\
    tracks s' p (c, t) /\
    (exists ext, store s' = store s ++ ext).
Proof.
  intros Hs. destruct (append_loop_spec t s [] Hs) as (s1 & q & E & Hs1 & Hp & Hext & Hq).
  unfold GlobalFit.append. rewrite E. cbn [app].
  unfold IsingPartitionFunction_init. rewrite check_domains_accepts.
  cbn [mbind outcome_bind].
  eexists; eexists. split; [reflexivity|].
  split; [split; cbn [store domains domain_types]; apply Hs1|].
  split; [cbn [proteins]; now rewrite Hp|].
  split; [|exact Hext].
  pose proof (Forall2_length _ _ _ Hq) as Hl.
  repeat split; cbn; try exact Hl. exact Hq.
Qed.

Lemma append_not_a_curve (s : GlobalFitWrapper) (t : list domain_class) :
  GlobalFit.append s NotACurve t = (Raise TypeError, s).
Proof. reflexivity. Qed.

(** ** Assignment of the flat parameter vector *)

Lemma getattr_setattr_eq (d : IsingDomain) (l : string) (v : R) :
  l ∈ PARAMETER_LABELS -> getattr (setattr d l v) l = Some v.
Proof.
  intros H. unfold PARAMETER_LABELS in H.
  repeat (apply elem_of_cons in H as [->|H]; [reflexivity|]).
  now apply elem_of_nil in H.
Qed.

Lemma getattr_setattr_ne (d : IsingDomain) (l p : string) (v : R) :
  l <> p -> getattr (setattr d p v) l = getattr d l.
Proof.
  intros Hne. unfold setattr, getattr.
  destruct (String.eqb_spec p "DG_i"), (String.eqb_spec p "DG_ij"),
    (String.eqb_spec p "m_i"), (String.eqb_spec p "m_ij"); subst; try discriminate;
    destruct (String.eqb_spec l "DG_i"), (String.eqb_spec l "DG_ij"),
      (String.eqb_spec l "m_i"), (String.eqb_spec l "m_ij"); subst;
    try discriminate; try congruence; reflexivity.
Qed.

Lemma cls_assign_fields (ls : list string) :
  forall (d : IsingDomain) (vs : list R), cls (assign_fields d ls vs) = cls d.
Proof.
  unfold assign_fields. induction ls as [|l ls IH]; intros d [|v vs]; try reflexivity.
  cbn [zip zip_with foldl fst snd]. now rewrite IH, cls_setattr.
Qed.

Lemma getattr_assign_fields_notin (l : string) (ls : list string) :
  forall (d : IsingDomain) (vs : list R),
    l ∉ ls -> getattr (assign_fields d ls vs) l = getattr d l.
Proof.
  unfold assign_fields. induction ls as [|p ls IH]; intros d [|v vs] Hn; try reflexivity.
  cbn [zip zip_with foldl fst snd]. apply not_elem_of_cons in Hn as [Hne Hn].
  rewrite IH by exact Hn. now apply getattr_setattr_ne.
Qed.

Lemma getattr_assign_fields (ls : list string) :
  forall (d : IsingDomain) (vs : list R) (j : nat) (l : string) (v : R),
    NoDup ls -> (forall l', l' ∈ ls -> l' ∈ PARAMETER_LABELS) ->
    ls !! j = Some l -> vs !! j = Some v ->
    getattr (assign_fields d ls vs) l = Some v.
Proof.
  induction ls as [|p ls IH]; intros d vs j l v Hnd Hsub Hl Hv; [discriminate|].
  destruct vs as [|v0 vs]; [discriminate|].
  apply NoDup_cons in Hnd as [Hp Hnd].
  unfold assign_fields. cbn [zip zip_with foldl fst snd].
  destruct j as [|j]; cbn in Hl, Hv.
  - injection Hl as <-. injection Hv as <-.
    change (getattr (assign_fields (setattr d p v0) ls vs) p = Some v0).
    rewrite getattr_assign_fields_notin by exact Hp.
    apply getattr_setattr_eq, Hsub. left.
  - apply (IH (setattr d p v0) vs j l v Hnd); [|exact Hl|exact Hv].
    intros l' Hl'. apply Hsub. now right.
Qed.

(** The labels and the bounds of a domain follow its used variables. *)
Lemma labels_spec (d : IsingDomain) :
  exists ls : list string,
    labels d = Ret ls /\
    Forall2 (fun i l => PARAMETER_LABELS !! i = Some l) (used_variables d) ls /\
    NoDup ls /\ (forall l, l ∈ ls -> l ∈ PARAMETER_LABELS).
Proof.
  unfold labels, used_variables.
  destruct (cls d); eexists; (split; [reflexivity|]);
    (split; [repeat constructor|]);
    (split; [| intros l Hl; apply list_elem_of_In in Hl; apply list_elem_of_In;
               cbn in *; tauto]);
    repeat (apply NoDup_cons; split;
            [rewrite list_elem_of_In; cbn; intuition discriminate|]);
    apply NoDup_nil_2.
Qed.

Lemma bounds_spec (d : IsingDomain) :
  exists bs : list (R * R),
    bounds d = Ret bs /\
    Forall2 (fun i b => ACCEPTABLE_BOUNDS !! i = Some b) (used_variables d) bs.
Proof.
  unfold bounds, used_variables.
  destruct (cls d); eexists; (split; [reflexivity|]); repeat constructor.
Qed.

Lemma map_cls_insert (h : list IsingDomain) (r : ref) (d d' : IsingDomain) :
  h !! r = Some d -> cls d' = cls d -> map cls (<[r := d']> h) = map cls h.
Proof.
  intros Hd Hc. change (cls <$> <[r := d']> h = cls <$> h).
  rewrite list_fmap_insert, Hc. apply list_insert_id.
  now rewrite list_lookup_fmap, Hd.
Qed.

Lemma lookup_classes (h h' : list IsingDomain) (r : ref) :
  map cls h' = map cls h -> cls <$> (h' !! r) = cls <$> (h !! r).
Proof.
  intros E. rewrite <- !list_lookup_fmap.
  change (map cls h' !! r = map cls h !! r). now rewrite E.
Qed.

Lemma slots_of_classes (h h' : list IsingDomain) (doms : list ref) :
  map cls h' = map cls h -> slots_of h' doms = slots_of h doms.
Proof.
  intros E. unfold slots_of. apply flat_map_ext. intros r.
  pose proof (lookup_classes h h' r E) as Hr.
  destruct (h' !! r) as [d'|], (h !! r) as [d|]; try discriminate; [|reflexivity].
  injection Hr as Hr. unfold used_variables. now rewrite Hr.
Qed.

Section AssignLabels.

Variable r : ref.

Lemma assign_labels_spec (ls : list string) :
  forall (h : list IsingDomain) (x : list R) (d : IsingDomain),
    h !! r = Some d -> (length ls <= length x)%nat ->
    GlobalFit.assign_labels h r ls x
    = (Ret (drop (length ls) x), <[r := assign_fields d ls x]> h).
Proof.
  induction ls as [|p ls IH]; intros h x d Hd Hlen.
  - cbn. f_equal. symmetry. now apply list_insert_id.
  - destruct x as [|v x]; [cbn in Hlen; lia|].
    cbn [GlobalFit.assign_labels]. rewrite Hd.
    rewrite (IH _ x (setattr d p v)).
    + cbn [length drop]. f_equal. now rewrite list_insert_insert_eq.
    + apply list_lookup_insert_eq. now apply lookup_lt_Some in Hd.
    + cbn in Hlen. lia.
Qed.

Lemma assign_labels_short (ls : list string) :
  forall (h : list IsingDomain) (x : list R) (d : IsingDomain),
    h !! r = Some d -> (length x < length ls)%nat ->
    exists h' : list IsingDomain,
      GlobalFit.assign_labels h r ls x = (Raise StopIteration, h') /\
      map cls h' = map cls h.
Proof.
  induction ls as [|p ls IH]; intros h x d Hd Hlen; [cbn in Hlen; lia|].
  destruct x as [|v x]; [now exists h|].
  cbn [GlobalFit.assign_labels]. rewrite Hd.
  destruct (IH (<[r := setattr d p v]> h) x (setattr d p v)) as (h' & E & Hc).
  - apply list_lookup_insert_eq. now apply lookup_lt_Some in Hd.
  - cbn in Hlen. lia.
  - exists h'. split; [exact E|]. rewrite Hc.
    apply (map_cls_insert h r d); [exact Hd | apply cls_setattr].
Qed.

Lemma assign_labels_app (ls : list string) :
  forall (h h' : list IsingDomain) (xs ys rest : list R),
    GlobalFit.assign_labels h r ls xs = (Ret rest, h') ->
    GlobalFit.assign_labels h r ls (xs ++ ys) = (Ret (rest ++ ys), h').
Proof.
  induction ls as [|p ls IH]; intros h h' xs ys rest E.
  - cbn in *. now injection E as -> ->.
  - destruct xs as [|v xs]; [discriminate|].
    cbn [GlobalFit.assign_labels app] in *.
    destruct (h !! r) as [d|]; [|discriminate]. now apply IH.
Qed.

End AssignLabels.

Lemma assign_domains_app (doms : list ref) :
  forall (h h' : list IsingDomain) (xs ys rest : list R),
    GlobalFit.assign_domains h doms xs = (Ret rest, h') ->
    GlobalFit.assign_domains h doms (xs ++ ys) = (Ret (rest ++ ys), h').
Proof.
  induction doms as [|r doms IH]; intros h h' xs ys rest E.
  - cbn in *. now injection E as -> ->.
  - cbn [GlobalFit.assign_domains] in *.
    destruct (deref h r ≫= labels) as [ls|e]; [|discriminate].
    destruct (GlobalFit.assign_labels h r ls xs) as [[rest1|e] h1] eqn:E1; [|discriminate].
    rewrite (assign_labels_app r ls h h1 xs ys rest1 E1). now apply IH.
Qed.

Lemma slots_of_cons (h : list IsingDomain) (r : ref) (doms : list ref) (d : IsingDomain) :
  h !! r = Some d ->
  slots_of h (r :: doms) = map (fun i => (r, i)) (used_variables d) ++ slots_of h doms.
Proof. intros Hd. unfold slots_of. cbn [flat_map]. now rewrite Hd. Qed.

(** With enough values, the assignment consumes one value per slot, in the
    order of the slots, and writes it to the field the slot names. *)
Lemma assign_domains_spec (doms : list ref) :
  forall (h : list IsingDomain) (x : list R),
    NoDup doms -> (forall r, r ∈ doms -> (r < length h)%nat) ->
    (length (slots_of h doms) <= length x)%nat ->
    exists h' : list IsingDomain,
      GlobalFit.assign_domains h doms x = (Ret (drop (length (slots_of h doms)) x), h') /\
      map cls h' = map cls h /\
      (forall r, r ∉ doms -> h' !! r = h !! r) /\
      (forall (p : nat) (r : ref) (i : nat) (v : R),
         slots_of h doms !! p = Some (r, i) -> x !! p = Some v ->
         exists (d' : IsingDomain) (l : string),
           h' !! r = Some d' /\ PARAMETER_LABELS !! i = Some l /\ getattr d' l = Some v).
Proof.
  induction doms as [|r doms IH]; intros h x Hnd Hin Hlen.
  - exists h. cbn. repeat split; try reflexivity. intros p r i v Hp. discriminate.
  - apply NoDup_cons in Hnd as [Hr Hnd].
    destruct (lookup_lt_is_Some_2 h r (Hin r ltac:(left))) as [d Hd].
    destruct (labels_spec d) as (ls & El & Hls & Hnd_ls & Hsub).
    pose proof (Forall2_length _ _ _ Hls) as Hlen_ls.
    rewrite (slots_of_cons h r doms d Hd) in *.
    rewrite length_app, length_map in Hlen.
    set (d1 := assign_fields d ls x). set (h1 := <[r := d1]> h).
    assert (Hc1 : map cls h1 = map cls h).
    { apply (map_cls_insert h r d); [exact Hd | apply cls_assign_fields]. }
    destruct (IH h1 (drop (length ls) x)) as (h' & E & Hc & Hframe & Hslot).
    { exact Hnd. }
    { intros r0 Hr0. unfold h1. rewrite length_insert. apply Hin. now right. }
    { rewrite (slots_of_classes h h1 doms Hc1), length_drop. lia. }
    rewrite (slots_of_classes h h1 doms Hc1) in E, Hslot.
    exists h'. cbn [GlobalFit.assign_domains]. unfold deref. rewrite Hd.
    cbn [mbind outcome_bind]. rewrite El.
    rewrite (assign_labels_spec r ls h x d Hd) by lia. fold d1. fold h1.
    rewrite E, drop_drop, length_app, length_map, <- Hlen_ls.
    split; [reflexivity|]. split; [now rewrite Hc|].
    split.
    + intros r0 Hr0. apply not_elem_of_cons in Hr0 as [Hne Hr0].
      rewrite (Hframe r0 Hr0). unfold h1. apply list_lookup_insert_ne. congruence.
    + intros p r0 i v Hp Hv.
      destruct (decide (p < length (used_variables d))%nat) as [Hlt|Hge].
      * rewrite lookup_app_l in Hp by (rewrite length_map; exact Hlt).
        change (((fun i => (r, i)) <$> used_variables d) !! p = Some (r0, i)) in Hp.
        rewrite list_lookup_fmap in Hp.
        destruct (used_variables d !! p) as [i'|] eqn:Ei; [|discriminate].
        cbn in Hp. injection Hp as <- <-.
        destruct (Forall2_lookup_l _ _ _ _ _ Hls Ei) as (l & Hl & Hpl).
        exists d1, l. split; [|split; [exact Hpl|]].
        -- rewrite (Hframe r Hr). unfold h1. apply list_lookup_insert_eq.
           now apply lookup_lt_Some in Hd.
        -- unfold d1. now apply (getattr_assign_fields ls d x p l v).
      * rewrite lookup_app_r in Hp by (rewrite length_map; lia).
        rewrite length_map in Hp.
        apply (Hslot (p - length (used_variables d))%nat r0 i v Hp).
        rewrite lookup_drop, <- Hlen_ls, <- Hv. f_equal. lia.
Qed.

(** With too few values, the assignment stops with StopIteration. *)
Lemma assign_domains_short (doms : list ref) :
  forall (h : list IsingDomain) (x : list R),
    (forall r, r ∈ doms -> (r < length h)%nat) ->
    (length x < length (slots_of h doms))%nat ->
    exists h' : list IsingDomain,
      GlobalFit.assign_domains h doms x = (Raise StopIteration, h') /\
      map cls h' = map cls h.
Proof.
  induction doms as [|r doms IH]; intros h x Hin Hlen; [cbn in Hlen; lia|].
  destruct (lookup_lt_is_Some_2 h r (Hin r ltac:(left))) as [d Hd].
  destruct (labels_spec d) as (ls & El & Hls & _).
  pose proof (Forall2_length _ _ _ Hls) as Hlen_ls.
  rewrite (slots_of_cons h r doms d Hd), length_app, length_map in Hlen.
  cbn [GlobalFit.assign_domains]. unfold deref. rewrite Hd.
  cbn [mbind outcome_bind]. rewrite El.
  destruct (decide (length x < length ls)%nat) as [Hlt|Hge].
  - destruct (assign_labels_short r ls h x d Hd Hlt) as (h' & E & Hc).
    exists h'. now rewrite E.
  - rewrite (assign_labels_spec r ls h x d Hd) by lia.
    set (h1 := <[r := assign_fields d ls x]> h).
    assert (Hc1 : map cls h1 = map cls h).
    { apply (map_cls_insert h r d); [exact Hd | apply cls_assign_fields]. }
    destruct (IH h1 (drop (length ls) x)) as (h' & E & Hc).
    + intros r0 Hr0. unfold h1. rewrite length_insert. apply Hin. now right.
    + rewrite (slots_of_classes h h1 doms Hc1), length_drop. lia.
    + exists h'. rewrite E. split; [reflexivity | now rewrite Hc].
Qed.

(** ** Sessions reached by method calls *)

Section Sessions.

Variable RT : R.

Lemma registry_refs (s : GlobalFitWrapper) :
  registry_ok s ->
  NoDup (domains s) /\ (forall r, r ∈ domains s -> (r < length (store s))%nat).
Proof.
  intros Hs. rewrite (ok_domains s Hs). split; [apply NoDup_seq|].
  intros r Hr. apply elem_of_seq in Hr. lia.
Qed.

(** The assignment keeps the length of the store and the class of every
    object. *)
Lemma assign_domains_classes (s : GlobalFitWrapper) (x : list R) :
  registry_ok s ->
  map cls (GlobalFit.assign_domains (store s) (domains s) x).2 = map cls (store s).
Proof.
  intros Hs. destruct (registry_refs s Hs) as [Hnd Hin].
  destruct (decide (length (slots s) <= length x)%nat) as [Hle|Hgt].
  - destruct (assign_domains_spec (domains s) (store s) x Hnd Hin Hle) as (h' & E & Hc & _).
    now rewrite E.
  - destruct (assign_domains_short (domains s) (store s) x Hin) as (h' & E & Hc).
    { unfold slots in Hgt. lia. }
    now rewrite E.
Qed.

Lemma call_session (s : GlobalFitWrapper) (x : list R) :
  registry_ok s ->
  let s' := (GlobalFit.call RT s x).2 in
  registry_ok s' /\ proteins s' = proteins s /\ map cls (store s') = map cls (store s).
Proof.
  intros Hs. unfold GlobalFit.call.
  destruct (decide (length (proteins s) < 1)%nat); [cbn; auto|].
  pose proof (assign_domains_classes s x Hs) as Hc.
  destruct (GlobalFit.assign_domains (store s) (domains s) x) as [o h'].
  cbn [snd] in Hc.
  assert (Hlen : length h' = length (store s)).
  { rewrite <- (length_map cls h'), Hc. apply length_map. }
  assert (Hok : registry_ok {| store := h'; proteins := proteins s;
                               domains := domains s; domain_types := domain_types s |}).
  { split; cbn [store domains domain_types].
    - now rewrite Hlen, (ok_domains s Hs).
    - now rewrite Hc, (ok_types s Hs).
    - apply Hs. }
  destruct o; cbn; auto.
Qed.

Lemma tracks_mono (s s' : GlobalFitWrapper) (p : protein)
    (ct : EquilibriumDenaturationCurve * list domain_class) :
  (forall r c, refers (store s) r c -> refers (store s') r c) ->
  tracks s p ct -> tracks s' p ct.
Proof.
  intros Hmono (H1 & H2 & H3 & H4). repeat split; try assumption.
  eapply Forall2_impl; [exact H4|]. intros r c. apply Hmono.
Qed.

(** Every session reached from a new wrapper has a well-formed registry,
    and its [proteins] record the appended pairs in order. *)
Lemma run_session (ops : list GlobalFit.op) :
  registry_ok (GlobalFit.run RT ops) /\
  Forall2 (tracks (GlobalFit.run RT ops)) (proteins (GlobalFit.run RT ops))
    (GlobalFit.appended ops).
Proof.
  induction ops as [|o ops [IHok IHtr]] using rev_ind.
  - split; [apply registry_ok_init | constructor].
  - unfold GlobalFit.run, GlobalFit.appended in *.
    rewrite foldl_app, omap_app. cbn [foldl omap].
    set (s := foldl (GlobalFit.step RT) GlobalFit.init ops) in *.
    destruct o as [[c|] t|x]; cbn [GlobalFit.step].
    + destruct (append_spec s c t IHok) as (s' & p & E & Hok & Hp & Htr & [ext Hext]).
      rewrite E. cbn [snd]. split; [exact Hok|].
      rewrite Hp. apply Forall2_app; [|constructor; [exact Htr | constructor]].
      eapply Forall2_impl; [exact IHtr|]. intros p0 ct. apply tracks_mono.
      intros r c'. rewrite Hext. apply refers_app.
    + rewrite append_not_a_curve. cbn [snd]. rewrite app_nil_r. auto.
    + destruct (call_session s x IHok) as (Hok & Hp & Hc).
      split; [exact Hok|]. rewrite app_nil_r, Hp.
      eapply Forall2_impl; [exact IHtr|]. intros p0 ct. apply tracks_mono.
      intros r c'. now apply refers_classes.
Qed.

(** On a session without curves the objective raises ValueError whatever
    the vector. *)
Lemma call_empty (s : GlobalFitWrapper) (x : list R) :
  proteins s = [] -> GlobalFit.call RT s x = (Raise ValueError, s).
Proof.
  intros H. unfold GlobalFit.call. rewrite H. cbn [length].
  now rewrite decide_True by lia.
Qed.

(** C9.  On a session whose [proteins] list is empty, the objective raises
    ValueError and leaves the session as it was: no parameter is assigned
    and no residual is computed. *)
Theorem call_without_curves (s : GlobalFitWrapper) (x : list R) :
  proteins s = [] -> GlobalFit.call RT s x = (Raise ValueError, s).
Proof. exact (call_empty s x). Qed.



End Sessions.

(** ** The flat ordering of bounds, names and values *)

Lemma Forall2_pair_slots {B : Type} (P : nat -> B -> Prop) (r : ref)
    (us : list nat) (bs : list B) :
  Forall2 P us bs ->
  Forall2 (fun b (ri : ref * nat) => ri.1 = r /\ P ri.2 b) bs (map (fun i => (r, i)) us).
Proof. induction 1; constructor; auto. Qed.

Lemma bounds_slots (doms : list ref) (h : list IsingDomain) :
  (forall r, r ∈ doms -> (r < length h)%nat) ->
  exists bss : list (list (R * R)),
    comprehension (fun r => domain ← deref h r; bounds domain) doms = Ret bss /\
    Forall2 (fun b (ri : ref * nat) => ACCEPTABLE_BOUNDS !! ri.2 = Some b)
      (concat bss) (slots_of h doms).
Proof.
  induction doms as [|r doms IH]; intros Hin.
  - exists []. split; [reflexivity | constructor].
  - destruct (lookup_lt_is_Some_2 h r (Hin r ltac:(left))) as [d Hd].
    destruct (bounds_spec d) as (bs & Eb & Hbs).
    destruct IH as (bss & E & Hall); [intros r0 Hr0; apply Hin; now right|].
    assert (Hdr : deref h r = Ret d) by (unfold deref; now rewrite Hd).
    exists (bs :: bss). cbn [comprehension]. rewrite Hdr.
    cbn [mbind outcome_bind]. rewrite Eb. cbn [mbind outcome_bind]. rewrite E.
    split; [reflexivity|]. rewrite (slots_of_cons h r doms d Hd). cbn [concat].
    apply Forall2_app; [|exact Hall].
    eapply Forall2_impl; [exact (Forall2_pair_slots _ r _ _ Hbs)|].
    intros b ri [_ H]. exact H.
Qed.

Lemma params_slots (doms : list ref) (h : list IsingDomain) :
  (forall r, r ∈ doms -> (r < length h)%nat) ->
  exists pss : list (list string),
    comprehension
      (fun r => domain ← deref h r;
                ls ← labels domain;
                Ret (map (fun l => name domain ++ " " ++ l)%string ls)) doms = Ret pss /\
    Forall2 (fun (s : string) (ri : ref * nat) =>
               exists (d : IsingDomain) (l : string),
                 h !! ri.1 = Some d /\ PARAMETER_LABELS !! ri.2 = Some l /\
                 s = (name d ++ " " ++ l)%string)
      (concat pss) (slots_of h doms).
Proof.
  induction doms as [|r doms IH]; intros Hin.
  - exists []. split; [reflexivity | constructor].
  - destruct (lookup_lt_is_Some_2 h r (Hin r ltac:(left))) as [d Hd].
    destruct (labels_spec d) as (ls & El & Hls & _).
    destruct IH as (pss & E & Hall); [intros r0 Hr0; apply Hin; now right|].
    exists (map (fun l => name d ++ " " ++ l)%string ls :: pss).
    assert (Hdr : deref h r = Ret d) by (unfold deref; now rewrite Hd).
    cbn [comprehension]. rewrite Hdr.
    cbn [mbind outcome_bind]. rewrite El. cbn [mbind outcome_bind]. rewrite E.
    split; [reflexivity|]. rewrite (slots_of_cons h r doms d Hd). cbn [concat].
    apply Forall2_app; [|exact Hall].
    clear - Hls Hd. induction Hls as [|i l us ls Hil _ IH]; cbn [map]; constructor.
    + exists d, l. auto.
    + exact IH.
Qed.

Lemma slots_of_elem (h : list IsingDomain) (doms : list ref) (p : nat) (r : ref) (i : nat) :
  slots_of h doms !! p = Some (r, i) ->
  r ∈ doms /\ exists d : IsingDomain, h !! r = Some d /\ i ∈ used_variables d.
Proof.
  intros Hp. apply list_elem_of_lookup_2, list_elem_of_In in Hp.
  unfold slots_of in Hp. apply in_flat_map in Hp as (r0 & Hr0 & Hi).
  destruct (h !! r0) as [d|] eqn:Ed; [|contradiction].
  apply in_map_iff in Hi as (i0 & [= <- <-] & Hi0).
  split; [now apply list_elem_of_In|].
  exists d. split; [exact Ed | now apply list_elem_of_In].
Qed.

Lemma slots_of_length_store (pre h : list IsingDomain) :
  length (slots_of (pre ++ h) (seq (length pre) (length h)))
  = sum_list_with (fun d => length (used_variables d)) h.
Proof.
  revert pre. induction h as [|d h IH]; intros pre; [reflexivity|].
  cbn [length seq sum_list_with].
  rewrite (slots_of_cons _ _ _ d) by (now apply list_lookup_middle).
  rewrite length_app, length_map. f_equal.
  specialize (IH (pre ++ [d])). rewrite <- app_assoc, length_app in IH.
  cbn [app length] in IH. rewrite Nat.add_1_r in IH. exact IH.
Qed.

Lemma slots_length (s : GlobalFitWrapper) :
  registry_ok s ->
  length (slots s) = sum_list_with (fun d => length (used_variables d)) (store s).
Proof.
  intros Hs. unfold slots. rewrite (ok_domains s Hs).
  apply (slots_of_length_store [] (store s)).
Qed.

Section FlatVector.

Variable RT : R.

(** With at least one curve and enough values, the objective assigns one
    value per slot and then computes the residuals on the new store. *)
Lemma call_assigns (s : GlobalFitWrapper) (x : list R) :
  registry_ok s -> proteins s <> [] -> (length (slots s) <= length x)%nat ->
  exists h' : list IsingDomain,
    let s' := {| store := h'; proteins := proteins s;
                 domains := domains s; domain_types := domain_types s |} in
    GlobalFit.assign_domains (store s) (domains s) x
      = (Ret (drop (length (slots s)) x), h') /\
    GlobalFit.call RT s x = (GlobalFit.residual_sum RT s', s') /\
    map cls h' = map cls (store s) /\
    (forall (p : nat) (r : ref) (i : nat) (v : R),
       slots s !! p = Some (r, i) -> x !! p = Some v ->
       exists (d' : IsingDomain) (l : string),
         h' !! r = Some d' /\ PARAMETER_LABELS !! i = Some l /\ getattr d' l = Some v).
Proof.
  intros Hs Hp Hlen. destruct (registry_refs s Hs) as [Hnd Hin].
  destruct (assign_domains_spec (domains s) (store s) x Hnd Hin Hlen)
    as (h' & E & Hc & _ & Hslot).
  exists h'. cbn zeta. split; [exact E|]. split; [|split; [exact Hc | exact Hslot]].
  unfold GlobalFit.call.
  rewrite decide_False by (destruct (proteins s); [contradiction | cbn; lia]).
  now rewrite E.
Qed.

(** C3.  In the session reached by any sequence of calls, [bounds] and
    [domain_params] return lists as long as the list of slots, which is
    the sum over the domain objects, in creation order, of the number of
    their used variables.  At every position [p], with [(r, i)] the
    [p]-th slot ([r] a registered domain object and [i] one of its used
    variables): [bounds[p]] is the acceptable bound of variable [i],
    [domain_params[p]] is the name of the object [r] followed by the label
    of [i], and the objective writes the [p]-th value of its vector to the
    attribute of [r] with that label. *)
Theorem flat_vector_correspondence (ops : list GlobalFit.op) :
  let s := GlobalFit.run RT ops in
  exists (bs : list (R * R)) (ps : list string),
    GlobalFit.bounds s = Ret bs /\
    GlobalFit.domain_params s = Ret ps /\
    domains s = seq 0 (length (store s)) /\
    length bs = sum_list_with (fun d => length (used_variables d)) (store s) /\
    length bs = length (slots s) /\
    length ps = length (slots s) /\
    forall (p : nat) (r : ref) (i : nat),
      slots s !! p = Some (r, i) ->
      exists (d : IsingDomain) (l : string) (b : R * R),
        r ∈ domains s /\
        store s !! r = Some d /\
        i ∈ used_variables d /\
        PARAMETER_LABELS !! i = Some l /\
        ACCEPTABLE_BOUNDS !! i = Some b /\
        bs !! p = Some b /\
        ps !! p = Some (name d ++ " " ++ l)%string /\
        forall (x : list R) (v : R),
          proteins s <> [] -> (length (slots s) <= length x)%nat -> x !! p = Some v ->
          exists d' : IsingDomain,
            store (GlobalFit.call RT s x).2 !! r = Some d' /\ getattr d' l = Some v.
Proof.
  intros s. destruct (run_session RT ops) as [Hok _]. fold s in Hok.
  destruct (registry_refs s Hok) as [Hnd Hin].
  destruct (bounds_slots (domains s) (store s) Hin) as (bss & Eb & Hb).
  destruct (params_slots (domains s) (store s) Hin) as (pss & Ep & Hp).
  pose proof (Forall2_length _ _ _ Hb) as Lb.
  pose proof (Forall2_length _ _ _ Hp) as Lp.
  exists (concat bss), (concat pss).
  unfold GlobalFit.bounds, GlobalFit.domain_params. rewrite Eb, Ep.
  split; [reflexivity|]. split; [reflexivity|].
  split; [apply Hok|].
  split; [rewrite <- (slots_length s Hok); exact Lb|].
  split; [exact Lb|]. split; [exact Lp|].
  intros p r i Hslot.
  destruct (Forall2_lookup_r _ _ _ _ _ Hb Hslot) as (b & Hbp & Hbi).
  destruct (Forall2_lookup_r _ _ _ _ _ Hp Hslot) as (nm & Hpp & d & l & Hd & Hl & ->).
  cbn [fst snd] in *.
  destruct (slots_of_elem _ _ _ _ _ Hslot) as (Hr & d0 & Hd0 & Hi).
  assert (d0 = d) as -> by congruence.
  exists d, l, b. repeat split; try assumption.
  intros x v Hne Hlen Hv.
  destruct (call_assigns s x Hok Hne Hlen) as (h' & _ & Ecall & _ & Hw).
  destruct (Hw p r i v Hslot Hv) as (d' & l' & Hd' & Hl' & Hg).
  rewrite Ecall. cbn [snd store]. exists d'. split; [exact Hd'|]. congruence.
Qed.

End FlatVector.

(** ** Surplus and missing values of the parameter vector *)

Section ParameterVector.

Variable RT : R.

Lemma comprehension_returns {A B : Type} (f : A -> outcome B) (l : list A) :
  (forall a : A, a ∈ l -> exists b : B, f a = Ret b) ->
  exists bs : list B, comprehension f l = Ret bs /\ length bs = length l.
Proof.
  intros H.
  destruct (comprehension_Forall f (fun _ => True) l) as (bs & E & _ & L).
  - intros a Ha. destruct (H a Ha) as [b Eb]. now exists b.
  - now exists bs.
Qed.

Lemma theta_array_returns (h : list IsingDomain) (q : IsingPartitionFunction ref)
    (den : list R) :
  n q = length (topology q) ->
  (forall r, r ∈ topology q -> (r < length h)%nat) ->
  exists fit : list R, GlobalFit.theta_array RT h q den = Ret fit.
Proof.
  intros Hn Hin.
  destruct (comprehension_returns (deref h) (topology q)) as (ds & E & L).
  { intros r Hr. destruct (lookup_lt_is_Some_2 h r (Hin r Hr)) as [d Hd].
    exists d. unfold deref. now rewrite Hd. }
  unfold GlobalFit.theta_array. rewrite E. cbn [mbind outcome_bind].
  rewrite Hn, <- L. fold (init_topology ds).
  destruct (comprehension_returns (theta RT (init_topology ds)) den) as (fit & Ef & _).
  { intros x _. apply theta_returns. }
  now exists fit.
Qed.

Lemma residual_sum_returns (s : GlobalFitWrapper)
    (cts : list (EquilibriumDenaturationCurve * list domain_class)) :
  Forall2 (tracks s) (proteins s) cts ->
  exists v : R, GlobalFit.residual_sum RT s = Ret v.
Proof.
  intros Htr. unfold GlobalFit.residual_sum.
  destruct (comprehension_returns
              (fun p => fit ← GlobalFit.theta_array RT (store s) (protein_partition p)
                                (curve_x (protein_curve p));
                        Ret (GlobalFit.sum_squares fit (curve_y (protein_curve p))))
              (proteins s)) as (res & E & _).
  - intros p Hp. apply list_elem_of_lookup in Hp as [k Hk].
    destruct (Forall2_lookup_l _ _ _ _ _ Htr Hk) as (ct & _ & _ & _ & Hn & Hq).
    destruct (theta_array_returns (store s) (protein_partition p)
                (curve_x (protein_curve p))) as (fit & Ef).
    + rewrite Hn. symmetry. exact (Forall2_length _ _ _ Hq).
    + intros r Hr. apply list_elem_of_lookup in Hr as [j Hj].
      destruct (Forall2_lookup_l _ _ _ _ _ Hq Hj) as (c & _ & Hc).
      unfold refers in Hc. destruct (store s !! r) eqn:Er; [|discriminate].
      now apply lookup_lt_Some in Er.
    + rewrite Ef. now eexists.
  - rewrite E. now eexists.
Qed.

(** C10.  In the session reached by any sequence of calls, with [k] the
    number of slots (the sum of the numbers of used variables of the
    domain objects): on a vector of [k] values or more, the outcome of the
    objective and the session afterwards are those of the call on the
    first [k] values.  With at least one curve appended, on such a vector
    the objective returns a value and its assignment leaves exactly the
    values after the first [k] in the iterator, and on a shorter vector
    the objective raises StopIteration. *)
Theorem surplus_values_ignored (ops : list GlobalFit.op) (x : list R) :
  let s := GlobalFit.run RT ops in
  let k := length (slots s) in
  k = sum_list_with (fun d => length (used_variables d)) (store s) /\
  ((k <= length x)%nat -> GlobalFit.call RT s x = GlobalFit.call RT s (take k x)) /\
  (proteins s <> [] ->
   ((k <= length x)%nat ->
    (exists v : R, (GlobalFit.call RT s x).1 = Ret v) /\
    (GlobalFit.assign_domains (store s) (domains s) x).1 = Ret (drop k x)) /\
   ((length x < k)%nat -> (GlobalFit.call RT s x).1 = Raise StopIteration)).
Proof.
  intros s k. destruct (run_session RT ops) as [Hok Htr]. fold s in Hok, Htr.
  split; [apply slots_length, Hok|].
  assert (Hlong : forall y : list R, proteins s <> [] -> (k <= length y)%nat ->
            exists h' : list IsingDomain,
              let s' := {| store := h'; proteins := proteins s;
                           domains := domains s; domain_types := domain_types s |} in
              GlobalFit.assign_domains (store s) (domains s) y = (Ret (drop k y), h') /\
              GlobalFit.call RT s y = (GlobalFit.residual_sum RT s', s') /\
              map cls h' = map cls (store s)).
  { intros y Hne Hlen.
    destruct (call_assigns RT s y Hok Hne Hlen) as (h' & E & Ecall & Hc & _).
    now exists h'. }
  split; [|intros Hne; split].
  - intros Hlen. destruct (proteins s) as [|p ps] eqn:Eps.
    + now rewrite !(call_empty RT) by exact Eps.
    + rewrite <- Eps in *. assert (Hne : proteins s <> []) by now rewrite Eps.
      destruct (Hlong x Hne Hlen) as (h' & Ex & Ecall & _).
      destruct (Hlong (take k x) Hne) as (h'' & Et & Ecall' & _).
      { rewrite length_take. lia. }
      pose proof (assign_domains_app _ _ _ _ (drop k x) _ Et) as Eapp.
      rewrite take_drop, Ex in Eapp. injection Eapp as _ ->.
      now rewrite Ecall, Ecall'.
  - intros Hlen. destruct (Hlong x Hne Hlen) as (h' & Ex & Ecall & Hc).
    split; [|now rewrite Ex].
    rewrite Ecall. cbn [fst].
    apply (residual_sum_returns _ (GlobalFit.appended ops)). cbn [proteins].
    eapply Forall2_impl; [exact Htr|]. intros p ct. apply tracks_mono.
    intros r c. cbn [store]. now apply refers_classes.
  - intros Hlen. destruct (registry_refs s Hok) as [_ Hin].
    destruct (assign_domains_short (domains s) (store s) x Hin Hlen) as (h' & E & _).
    unfold GlobalFit.call.
    rewrite decide_False by (destruct (proteins s); [contradiction | cbn; lia]).
    now rewrite E.
Qed.

End ParameterVector.

(** ** The sample session *)

Lemma call_without_curves_witness :
  GlobalFit.call RT_sample GlobalFit.init [1; 2; 3] = (Raise ValueError, GlobalFit.init).
Proof.
  apply (call_without_curves RT_sample GlobalFit.init [1; 2; 3]). reflexivity.
Defined.

Example sample_slots :
  slots (GlobalFit.run RT_sample sample_ops)
  = [(0, 0); (0, 1); (0, 2); (1, 0); (1, 2)]%nat.
Proof. reflexivity. Qed.

Example sample_domain_params :
  GlobalFit.domain_params (GlobalFit.run RT_sample sample_ops)
  = Ret ["Repeat DG_i"; "Repeat DG_ij"; "Repeat m_i"; "Cap DG_i"; "Cap m_i"]%string.
Proof. reflexivity. Qed.

Example sample_bounds :
  GlobalFit.bounds (GlobalFit.run RT_sample sample_ops)
  = Ret [(-2, 15); (-15, 2); (-3, -0.01); (-2, 15); (-3, -0.01)].
Proof. reflexivity. Qed.

Example sample_topologies :
  map (fun p => topology (protein_partition p))
      (proteins (GlobalFit.run RT_sample sample_ops))
  = [[0; 1]; [1; 0]]%nat.
Proof. reflexivity. Qed.


(** In the sample session, which has five slots: a vector of seven values
    gives the outcome and the session of its first five values and
    returns a value, and a vector of four values raises StopIteration. *)
Lemma surplus_values_ignored_witness :
  let s := GlobalFit.run RT_sample sample_ops in
  proteins s <> [] /\
  length (slots s) = 5%nat /\
  GlobalFit.call RT_sample s [1; 2; 3; 4; 5; 6; 7]
    = GlobalFit.call RT_sample s [1; 2; 3; 4; 5] /\
  (exists v : R, (GlobalFit.call RT_sample s [1; 2; 3; 4; 5; 6; 7]).1 = Ret v) /\
  (GlobalFit.call RT_sample s [1; 2; 3; 4]).1 = Raise StopIteration.
Proof.
  intros s.
  assert (Hne : proteins s <> []) by discriminate.
  split; [exact Hne|]. split; [reflexivity|].
  destruct (surplus_values_ignored RT_sample sample_ops [1; 2; 3; 4; 5; 6; 7])
    as (_ & H1 & H2).
  destruct (surplus_values_ignored RT_sample sample_ops [1; 2; 3; 4])
    as (_ & _ & H3).
  fold s in H1, H2, H3. change (length (slots s)) with 5%nat in H1, H2, H3.
  split; [apply H1; cbn; lia|].
  split; [apply (H2 Hne); cbn; lia|].
  apply (H3 Hne). cbn. lia.
Defined.

(** * Further properties of the partition function *)

Section PartitionInputs.

Variable RT : R.

(** The loop reads the topology and the folded vector only at the indices
    of its range, and the domains only through [q_i]. *)
Lemma partition_loop_agree (s1 s2 : IsingPartitionFunction IsingDomain) (x : R)
    (f1 f2 : list R) (range : list nat) :
  (forall i, i ∈ range ->
     f1 !! i = f2 !! i /\
     match topology s1 !! i, topology s2 !! i with
     | Some d1, Some d2 => forall f, q_i RT d1 x f = q_i RT d2 x f
     | None, None => True
     | _, _ => False
     end) ->
  forall q : rowvec,
    partition_loop RT s1 x f1 q range = partition_loop RT s2 x f2 q range.
Proof.
  induction range as [|i range IH]; intros H q; [reflexivity|].
  cbn [partition_loop]. unfold getitem.
  destruct (H i ltac:(left)) as [Hf Ht]. rewrite Hf.
  destruct (topology s1 !! i) as [d1|], (topology s2 !! i) as [d2|];
    try contradiction; [|reflexivity].
  cbn [mbind outcome_bind]. destruct (f2 !! i) as [f|]; [|reflexivity].
  cbn [mbind outcome_bind]. rewrite Ht. apply IH.
  intros j Hj. apply H. now right.
Qed.







End PartitionInputs.

Section FoldedVector.

Variable RT : R.

Lemma partition_loop_short (topo : list IsingDomain) (x : R) (folded : list R) :
  (length folded < length topo)%nat ->
  forall (k i : nat) (q : rowvec),
    (i + k = length topo)%nat -> (i <= length folded)%nat ->
    partition_loop RT (init_topology topo) x folded q (seq i k) = Raise IndexError.
Proof.
  intros Hlen k. induction k as [|k IH]; intros i q Hik Hi; [lia|].
  cbn [seq partition_loop]. unfold getitem. cbn [topology init_topology].
  destruct (lookup_lt_is_Some_2 topo i ltac:(lia)) as [d ->]. cbn [mbind outcome_bind].
  destruct (folded !! i) as [f|] eqn:Ef; [|reflexivity].
  cbn [mbind outcome_bind]. apply IH; [lia|].
  apply lookup_lt_Some in Ef. lia.
Qed.

(** X2.  A non-empty folded vector shorter than the topology makes
    [partition] raise IndexError; of a folded vector at least as long as
    the topology only the first [n] entries are read; and the empty
    vector stands for the vector of ones. *)
Theorem partition_folded_length (topo : list IsingDomain) (x : R) (folded : list R) :
  ((0 < length folded < length topo)%nat ->
   partition RT (init_topology topo) x folded = Raise IndexError) /\
  ((length topo <= length folded)%nat ->
   partition RT (init_topology topo) x folded
   = partition RT (init_topology topo) x (take (length topo) folded)) /\
  partition RT (init_topology topo) x [] = partition RT (init_topology topo) x (ones (length topo)).
Proof.
  split; [|split].
  - intros [Hpos Hlt]. unfold partition.
    rewrite decide_False by lia.
    change (n (init_topology topo)) with (length topo).
    now rewrite (partition_loop_short topo x folded Hlt (length topo) 0 (0, 1)) by lia.
  - intros Hlen. unfold partition. change (n (init_topology topo)) with (length topo).
    rewrite length_take_le by exact Hlen.
    destruct (decide (length folded = 0%nat)) as [E0|N0].
    + assert (length topo = 0%nat) as -> by lia. reflexivity.
    + destruct (decide (length topo = 0%nat)) as [E1|N1]; [now rewrite E1|].
      f_equal. apply partition_loop_agree. intros i Hi. apply elem_of_seq in Hi.
      split; [now rewrite lookup_take_lt by lia|].
      now destruct (topology (init_topology topo) !! i).
  - unfold partition. change (n (init_topology topo)) with (length topo).
    rewrite ones_length. cbn [length]. rewrite decide_True by reflexivity.
    now destruct (decide (length topo = 0%nat)) as [->|].
Qed.

Lemma partition_loop_returns (topo : list IsingDomain) (x : R) (folded : list R) :
  (length topo <= length folded)%nat ->
  forall (k i : nat) (q : rowvec),
    (i + k = length topo)%nat ->
    exists r : rowvec, partition_loop RT (init_topology topo) x folded q (seq i k) = Ret r.
Proof.
  intros Hlen k. induction k as [|k IH]; intros i q Hik; [eexists; reflexivity|].
  cbn [seq partition_loop]. unfold getitem. cbn [topology init_topology].
  destruct (lookup_lt_is_Some_2 topo i ltac:(lia)) as [d ->].
  destruct (lookup_lt_is_Some_2 folded i ltac:(lia)) as [f ->].
  cbn [mbind outcome_bind]. apply IH. lia.
Qed.

Lemma partition_returns (topo : list IsingDomain) (x : R) (folded : list R) :
  (length folded = 0 \/ length topo <= length folded)%nat ->
  exists q_n : R, partition RT (init_topology topo) x folded = Ret q_n.
Proof.
  intros H. unfold partition. change (n (init_topology topo)) with (length topo).
  set (f := if decide (length folded = 0%nat) then ones (length topo) else folded).
  assert (Hf : (length topo <= length f)%nat).
  { unfold f. destruct (decide (length folded = 0%nat)); [rewrite ones_length|]; lia. }
  destruct (partition_loop_returns topo x f Hf (length topo) 0 (0, 1) eq_refl) as [r ->].
  eexists; reflexivity.
Qed.

(** X3.  For a domain index within the topology, [subpopulation] returns
    a number and raises nothing; for an index at or past the end of the
    topology it raises IndexError. *)
Theorem subpopulation_outcome (topo : list IsingDomain) (x : R) (i : nat) :
  ((i < length topo)%nat ->
   exists p : R, subpopulation RT (init_topology topo) x i = Ret p) /\
  ((length topo <= i)%nat ->
   subpopulation RT (init_topology topo) x i = Raise IndexError).
Proof.
  destruct (partition_returns topo x [] ltac:(now left)) as (q_n & Eq).
  split; intros Hi; unfold subpopulation; rewrite Eq; cbn [mbind outcome_bind].
  - unfold subpartition. change (n (init_topology topo)) with (length topo).
    rewrite decide_True by exact Hi. cbn [mbind outcome_bind].
    destruct (partition_returns topo x
                (map (fun f => 1 - f) (<[i := 0]> (ones (length topo))))) as [s ->].
    { right. now rewrite length_map, length_insert, ones_length. }
    eexists; reflexivity.
  - unfold subpartition. change (n (init_topology topo)) with (length topo).
    now rewrite decide_False by lia.
Qed.

End FoldedVector.

(** ** The partition sum over configurations *)

Lemma np_sum_app (l1 l2 : list R) : np_sum (l1 ++ l2) = np_sum l1 + np_sum l2.
Proof.
  unfold np_sum. induction l1 as [|a l1 IH]; cbn [app foldr]; lra.
Qed.

Lemma np_sum_scale {A : Type} (c : R) (g : A -> R) (l : list A) :
  np_sum (map (fun a => c * g a) l) = c * np_sum (map g l).
Proof.
  unfold np_sum. induction l as [|a l IH]; cbn [map foldr]; lra.
Qed.

Lemma np_sum_plus {A : Type} (g h : A -> R) (l : list A) :
  np_sum (map (fun a => g a + h a) l) = np_sum (map g l) + np_sum (map h l).
Proof.
  unfold np_sum. induction l as [|a l IH]; cbn [map foldr]; lra.
Qed.

Lemma np_sum_ext {A : Type} (g h : A -> R) (l : list A) :
  (forall a, a ∈ l -> g a = h a) -> np_sum (map g l) = np_sum (map h l).
Proof.
  unfold np_sum. induction l as [|a l IH]; intros H; [reflexivity|].
  cbn [map foldr]. rewrite (H a) by left. rewrite IH; [reflexivity|].
  intros b Hb. apply H. now right.
Qed.

Lemma np_sum_cons (a : R) (l : list R) : np_sum (a :: l) = a + np_sum l.
Proof. reflexivity. Qed.

Lemma np_sum_zero {A : Type} (l : list A) : np_sum (map (fun _ => 0) l) = 0.
Proof. induction l as [|a l IH]; [reflexivity|]. cbn [map]. rewrite np_sum_cons, IH. lra. Qed.

Lemma np_sum_nonneg (l : list R) : Forall (fun v => 0 <= v) l -> 0 <= np_sum l.
Proof. induction 1; [cbn; lra | rewrite np_sum_cons; lra]. Qed.

Lemma configs_length (k : nat) (sigma : list bool) :
  sigma ∈ configs k -> length sigma = k.
Proof.
  revert sigma. induction k as [|k IH]; intros sigma H; cbn [configs] in H.
  - apply list_elem_of_singleton in H. now subst.
  - apply elem_of_app in H as [H|H];
      change (map ?h ?l) with (h <$> l) in H;
      apply list_elem_of_fmap in H as (s' & -> & Hs'); cbn; f_equal; now apply IH.
Qed.

Section ConfigurationSum.

Variable RT : R.

(** The sum over the configurations of a chain with one more domain in
    front. *)
Lemma config_sum_cons (x : R) (prev : bool) (d : IsingDomain) (ds : list IsingDomain)
    (f : R) (fs : list R) (k : nat) :
  np_sum (map (config_weight RT x prev (d :: ds) (f :: fs)) (configs (S k)))
  = domain_weight RT d x f prev true
      * np_sum (map (config_weight RT x true ds fs) (configs k))
    + domain_weight RT d x f prev false
      * np_sum (map (config_weight RT x false ds fs) (configs k)).
Proof.
  cbn [configs]. rewrite map_app, np_sum_app, !map_map.
  cbn [config_weight]. now rewrite !np_sum_scale.
Qed.

Lemma rowmul_weights (d : IsingDomain) (x f q1 q2 : R) :
  rowmul (q1, q2) (q_i RT d x f)
  = (q1 * domain_weight RT d x f true true + q2 * domain_weight RT d x f false true,
     q1 * domain_weight RT d x f true false + q2 * domain_weight RT d x f false false).
Proof.
  unfold q_i, q_func, domain_weight, is_cap. now destruct (cls d).
Qed.

(** The loop accumulates the weights of the configurations of the part of
    the chain it has yet to read. *)
Lemma partition_loop_config_sum (topo : list IsingDomain) (x : R) (folded : list R) :
  length folded = length topo ->
  forall (k i : nat) (q : rowvec),
    (i + k = length topo)%nat ->
    exists r : rowvec,
      partition_loop RT (init_topology topo) x folded q (seq i k) = Ret r /\
      r.1 + r.2
      = q.1 * np_sum (map (config_weight RT x true (drop i topo) (drop i folded)) (configs k))
        + q.2 * np_sum (map (config_weight RT x false (drop i topo) (drop i folded)) (configs k)).
Proof.
  intros Hlen k. induction k as [|k IH]; intros i [q1 q2] Hik.
  - exists (q1, q2). split; [reflexivity|].
    cbn [configs map fst snd]. rewrite !drop_ge by lia. cbn. lra.
  - destruct (lookup_lt_is_Some_2 topo i ltac:(lia)) as [d Hd].
    destruct (lookup_lt_is_Some_2 folded i ltac:(lia)) as [f Hf].
    destruct (IH (S i) (rowmul (q1, q2) (q_i RT d x f)) ltac:(lia)) as (r & E & Hr).
    exists r. cbn [seq partition_loop]. unfold getitem. cbn [topology init_topology].
    rewrite Hd, Hf. cbn [mbind outcome_bind]. split; [exact E|].
    rewrite Hr, rowmul_weights. cbn [fst snd].
    rewrite (drop_S topo d i Hd), (drop_S folded f i Hf), !config_sum_cons. lra.
Qed.

Lemma partition_default_ones (topo : list IsingDomain) (x : R) :
  partition RT (init_topology topo) x []
  = partition RT (init_topology topo) x (ones (length topo)).
Proof.
  unfold partition. change (n (init_topology topo)) with (length topo).
  rewrite ones_length. cbn [length]. rewrite decide_True by reflexivity.
  now destruct (decide (length topo = 0%nat)) as [->|].
Qed.

Lemma partition_config_sum_gen (topo : list IsingDomain) (x : R) (folded : list R) :
  length folded = length topo ->
  partition RT (init_topology topo) x folded
  = Ret (np_sum (map (config_weight RT x false topo folded) (configs (length topo)))).
Proof.
  intros Hlen.
  destruct (partition_loop_config_sum topo x folded Hlen (length topo) 0 (0, 1))
    as (r & E & Hr); [lia|].
  rewrite !drop_0 in Hr. cbn [fst snd] in Hr.
  unfold partition. change (n (init_topology topo)) with (length topo).
  destruct (decide (length folded = 0%nat)) as [E0|N0].
  - assert (folded = []) as -> by now destruct folded.
    assert (topo = []) as -> by (destruct topo; [reflexivity | cbn in Hlen; lia]).
    cbn. f_equal. lra.
  - rewrite E. cbn [mbind outcome_bind]. f_equal. lra.
Qed.

(** Setting the folded indicator of domain [i] to 0 removes the
    configurations in which this domain is unfolded. *)
Lemma config_weight_insert_0 (x : R) (doms : list IsingDomain) :
  forall (prev : bool) (fs : list R) (sigma : list bool) (i : nat),
    length fs = length doms -> length sigma = length doms -> (i < length doms)%nat ->
    config_weight RT x prev doms (<[i := 0]> fs) sigma
    = if decide (sigma !! i = Some false) then 0
      else config_weight RT x prev doms fs sigma.
Proof.
  induction doms as [|d doms IH]; intros prev fs sigma i Hf Hs Hi; [cbn in Hi; lia|].
  destruct fs as [|f fs]; [discriminate|]. destruct sigma as [|b sigma]; [discriminate|].
  destruct i as [|i].
  - cbn [list_insert insert config_weight lookup list_lookup].
    destruct b; cbn [domain_weight].
    + now rewrite decide_False by discriminate.
    + rewrite decide_True by reflexivity. lra.
  - cbn [config_weight]. change (<[S i := 0]> (f :: fs)) with (f :: <[i := 0]> fs).
    cbn [config_weight]. rewrite IH by (cbn in *; lia).
    change ((b :: sigma) !! S i) with (sigma !! i).
    destruct (decide (sigma !! i = Some false)); lra.
Qed.

Lemma subpartition_config_sum (topo : list IsingDomain) (x : R) (i : nat) :
  (i < length topo)%nat ->
  subpartition RT (init_topology topo) x i false
  = Ret (np_sum (map (fun sigma =>
                        if decide (sigma !! i = Some false) then 0
                        else config_weight RT x false topo (ones (length topo)) sigma)
                     (configs (length topo)))).
Proof.
  intros Hi. unfold subpartition. change (n (init_topology topo)) with (length topo).
  rewrite decide_True by exact Hi. cbn [mbind outcome_bind].
  rewrite partition_config_sum_gen by (now rewrite length_insert, ones_length).
  f_equal. apply np_sum_ext. intros sigma Hs.
  apply config_weight_insert_0; [apply ones_length | now apply configs_length | exact Hi].
Qed.

(** X4.  [partition(x)] is the sum, over the [2^n] configurations of the
    chain, of the product of the weights of the domains: [kappa * tau]
    for a folded domain that follows a folded one (and is not a cap),
    [kappa] for any other folded domain, 1 for an unfolded one.
    [subpartition(x, i)] is the same sum restricted to the configurations
    in which domain [i] is folded. *)
Theorem partition_is_configuration_sum (topo : list IsingDomain) (x : R) (i : nat) :
  let weight := config_weight RT x false topo (ones (length topo)) in
  partition RT (init_topology topo) x []
    = Ret (np_sum (map weight (configs (length topo)))) /\
  ((i < length topo)%nat ->
   subpartition RT (init_topology topo) x i false
   = Ret (np_sum (map (fun sigma => if decide (sigma !! i = Some false) then 0
                                    else weight sigma)
                      (configs (length topo))))).
Proof.
  intros weight. split.
  - rewrite partition_default_ones.
    apply partition_config_sum_gen, ones_length.
  - apply subpartition_config_sum.
Qed.

Lemma np_sum_swap {A B : Type} (g : A -> B -> R) (la : list A) (lb : list B) :
  np_sum (map (fun a => np_sum (map (g a) lb)) la)
  = np_sum (map (fun b => np_sum (map (fun a => g a b) la)) lb).
Proof.
  induction la as [|a la IH]; cbn [map].
  - now rewrite np_sum_zero.
  - rewrite np_sum_cons, IH, <- np_sum_plus. apply np_sum_ext. intros b _.
    now rewrite np_sum_cons.
Qed.

Lemma folded_count_cons (b : bool) (sigma : list bool) :
  folded_count (b :: sigma) = ((if b then 1 else 0) + folded_count sigma)%nat.
Proof. unfold folded_count. now destruct b. Qed.

Lemma folded_count_le (sigma : list bool) : (folded_count sigma <= length sigma)%nat.
Proof.
  induction sigma as [|b sigma IH]; [cbn; lia|].
  rewrite folded_count_cons. destruct b; cbn [length]; lia.
Qed.

(** Summed over the domain indices, the restricted weights count the
    folded domains of a configuration. *)
Lemma folded_positions_sum (w : R) (sigma : list bool) :
  np_sum (map (fun i => if decide (sigma !! i = Some false) then 0 else w)
              (seq 0 (length sigma)))
  = w * INR (folded_count sigma).
Proof.
  induction sigma as [|b sigma IH].
  - cbn. lra.
  - cbn [length seq map]. rewrite <- seq_shift, map_map, np_sum_cons.
    change (fun i => if decide ((b :: sigma) !! S i = Some false) then 0 else w)
      with (fun i => if decide (sigma !! i = Some false) then 0 else w).
    rewrite IH, folded_count_cons, plus_INR.
    destruct b; cbn [lookup list_lookup].
    + rewrite decide_False by discriminate. cbn. lra.
    + rewrite decide_True by reflexivity. cbn. lra.
Qed.

Lemma theta_mean_unfolded (d : IsingDomain) (ds : list IsingDomain) (x : R) :
  let topo := d :: ds in
  let len := length topo in
  let weight := config_weight RT x false topo (ones len) in
  theta RT (init_topology topo) x
  = Ret (np_sum (map (fun sigma => weight sigma * INR (len - folded_count sigma))
                     (configs len))
         / (INR len * np_sum (map weight (configs len)))).
Proof.
  intros topo len weight.
  destruct (partition_pos RT d ds x) as (q_n & Eq & Hq). fold topo in Eq.
  assert (Hz : q_n = np_sum (map weight (configs len))).
  { rewrite partition_default_ones, partition_config_sum_gen in Eq by apply ones_length.
    now injection Eq as <-. }
  unfold theta. rewrite Eq. cbn [mbind outcome_bind].
  change (n (init_topology topo)) with len.
  rewrite (comprehension_total _
             (fun i => np_sum (map (fun sigma => if decide (sigma !! i = Some false) then 0
                                                 else weight sigma) (configs len)))).
  2:{ intros i Hi. apply elem_of_seq in Hi. apply subpartition_config_sum. unfold len in Hi. lia. }
  cbn [mbind outcome_bind]. f_equal.
  rewrite (np_sum_swap (fun i sigma => if decide (sigma !! i = Some false) then 0
                                       else weight sigma)).
  rewrite (np_sum_ext _ (fun sigma => weight sigma * INR (folded_count sigma))).
  2:{ intros sigma Hs. rewrite <- (configs_length len sigma Hs). apply folded_positions_sum. }
  rewrite (np_sum_ext (fun sigma => weight sigma * INR (len - folded_count sigma))
             (fun sigma => INR len * weight sigma
                           + (-1) * (weight sigma * INR (folded_count sigma)))).
  2:{ intros sigma Hs. pose proof (folded_count_le sigma) as Hc.
      rewrite (configs_length len sigma Hs) in Hc. rewrite minus_INR by exact Hc. lra. }
  rewrite np_sum_plus, !np_sum_scale, <- Hz.
  assert (Hn : 0 < INR len) by (apply lt_0_INR; unfold len; cbn; lia).
  field. split; lra.
Qed.

(** X5.  For a non-empty chain, [theta(x)] is the mean fraction of
    unfolded domains: the sum over the configurations of their weight
    times their number of unfolded domains, divided by [n] times the sum
    of the weights. *)
Theorem theta_is_mean_unfolded (d : IsingDomain) (ds : list IsingDomain) (x : R) :
  let topo := d :: ds in
  let len := length topo in
  let weight := config_weight RT x false topo (ones len) in
  theta RT (init_topology topo) x
  = Ret (np_sum (map (fun sigma => weight sigma * INR (len - folded_count sigma))
                     (configs len))
         / (INR len * np_sum (map weight (configs len)))).
Proof. exact (theta_mean_unfolded d ds x). Qed.

End ConfigurationSum.

(** * Further properties of the fit session *)

(** ** What an append changes *)

Lemma append_loop_grows (topology : list domain_class) :
  forall (s : GlobalFitWrapper) (q0 : list ref),
    let s' := (GlobalFit.append_loop topology s q0).2 in
    exists ext : list IsingDomain,
      store s' = store s ++ ext /\
      Forall (fun d => cls d ∈ topology /\ d = IsingDomain_init (cls d)) ext /\
      proteins s' = proteins s /\
      domains s' = domains s ++ seq (length (store s)) (length ext) /\
      domain_types s' = domain_types s ++ map cls ext.
Proof.
  induction topology as [|domain topology IH]; intros s q0; cbn zeta.
  - exists []. cbn. rewrite !app_nil_r. repeat split; constructor.
  - cbn [GlobalFit.append_loop].
    assert (Hweaken : forall ext : list IsingDomain,
              Forall (fun d => cls d ∈ topology /\ d = IsingDomain_init (cls d)) ext ->
              Forall (fun d => cls d ∈ domain :: topology /\ d = IsingDomain_init (cls d)) ext).
    { intros ext H. eapply Forall_impl; [exact H|].
      intros d [H1 H2]. split; [now right | exact H2]. }
    destruct (decide (domain ∈ domain_types s)) as [Hin|Hnin].
    + destruct (list_index domain (domain_types s) ≫= getitem (domains s)) as [r|e].
      * destruct (IH s (q0 ++ [r])) as (ext & H1 & H2 & H3 & H4 & H5).
        exists ext. repeat split; auto.
      * exists []. cbn. rewrite !app_nil_r. repeat split; constructor.
    + set (s1 := {| store := store s ++ [IsingDomain_init domain] |}).
      destruct (IH s1 (q0 ++ [length (store s)])) as (ext & H1 & H2 & H3 & H4 & H5).
      exists (IsingDomain_init domain :: ext).
      rewrite H1, H3, H4, H5. cbn [s1 store proteins domains domain_types].
      rewrite length_app, <- !app_assoc. cbn [length app map seq IsingDomain_init cls].
      rewrite Nat.add_1_r. repeat split; auto.
      constructor; [split; [left | reflexivity] | auto].
Qed.

Lemma append_grows (s : GlobalFitWrapper) (curve : pycurve)
    (topology : list domain_class) :
  let s' := (GlobalFit.append s curve topology).2 in
  exists (ext : list IsingDomain) (ps : list protein),
    store s' = store s ++ ext /\
    Forall (fun d => cls d ∈ topology /\ d = IsingDomain_init (cls d)) ext /\
    domains s' = domains s ++ seq (length (store s)) (length ext) /\
    domain_types s' = domain_types s ++ map cls ext /\
    proteins s' = proteins s ++ ps /\ (length ps <= 1)%nat.
Proof.
  cbn zeta. unfold GlobalFit.append. destruct curve as [c|].
  - destruct (append_loop_grows topology s []) as (ext & H1 & H2 & H3 & H4 & H5).
    cbn zeta in *.
    destruct (GlobalFit.append_loop topology s []) as [[q|e] s1]; cbn [snd] in *.
    + destruct (IsingPartitionFunction_init (AList (map AnIsingDomain q))) as [pf|e];
        cbn [snd store domains domain_types proteins].
      * exists ext. eexists [_]. rewrite H3. repeat split; auto.
      * exists ext, []. rewrite app_nil_r. repeat split; auto.
    + exists ext, []. rewrite app_nil_r. repeat split; auto.
  - exists [], []. cbn. rewrite !app_nil_r. repeat split; auto.
Qed.

(** X6.  For a topology made of the predefined domain classes, and a
    first argument of any kind, [append] only adds: the domain objects,
    the registry and the protein entries it finds are kept as they are,
    every new domain object is of a class of the given topology and
    carries the default parameter values, and at most one protein entry is
    added; when the first argument is not a curve, TypeError is raised and
    the session is left as it was. *)
Theorem append_only_adds (s : GlobalFitWrapper) (curve : pycurve)
    (topology : list domain_class) :
  let s' := (GlobalFit.append s curve topology).2 in
  exists (ext : list IsingDomain) (ps : list protein),
    store s' = store s ++ ext /\
    Forall (fun d => cls d ∈ topology /\ d = IsingDomain_init (cls d)) ext /\
    domains s' = domains s ++ seq (length (store s)) (length ext) /\
    domain_types s' = domain_types s ++ map cls ext /\
    proteins s' = proteins s ++ ps /\ (length ps <= 1)%nat /\
    (curve = NotACurve -> GlobalFit.append s curve topology = (Raise TypeError, s)).
Proof.
  destruct (append_grows s curve topology) as (ext & ps & H).
  exists ext, ps. cbn zeta.
  repeat (split; [apply H|]). now intros ->.
Qed.

(** ** The registry lists the classes in order of first occurrence *)

Lemma registry_ok_alloc (s : GlobalFitWrapper) (domain : domain_class) :
  registry_ok s -> domain ∉ domain_types s ->
  registry_ok {| store := store s ++ [IsingDomain_init domain];
                 proteins := proteins s;
                 domains := domains s ++ [length (store s)];
                 domain_types := domain_types s ++ [domain] |}.
Proof.
  intros Hs Hnin. split; cbn [store domains domain_types].
  - rewrite length_app. cbn [length]. rewrite Nat.add_1_r, seq_S.
    now rewrite (ok_domains s Hs).
  - rewrite map_app. cbn [map IsingDomain_init cls]. now rewrite (ok_types s Hs).
  - apply NoDup_app. split; [apply Hs|]. split; [|apply NoDup_singleton].
    intros c Hc Hc'. apply list_elem_of_singleton in Hc'. now subst.
Qed.

Lemma append_loop_types (topology : list domain_class) :
  forall (s : GlobalFitWrapper) (q0 : list ref),
    registry_ok s ->
    domain_types (GlobalFit.append_loop topology s q0).2
    = foldl register (domain_types s) topology.
Proof.
  induction topology as [|domain topology IH]; intros s q0 Hs; [reflexivity|].
  cbn [GlobalFit.append_loop foldl]. unfold register at 2.
  destruct (decide (domain ∈ domain_types s)) as [Hin|Hnin].
  - destruct (list_index_elem _ _ Hin) as (i & Ei & Li). rewrite Ei.
    cbn [mbind outcome_bind]. unfold getitem.
    assert (Hi : (i < length (store s))%nat).
    { apply lookup_lt_Some in Li. rewrite (ok_types s Hs), length_map in Li. exact Li. }
    rewrite (ok_domains s Hs), (lookup_seq_lt _ _ _ Hi). now apply IH.
  - rewrite IH by now apply registry_ok_alloc. reflexivity.
Qed.

Lemma elem_of_foldl_register (l : list domain_class) :
  forall (seen : list domain_class) (c : domain_class),
    c ∈ foldl register seen l <-> c ∈ seen \/ c ∈ l.
Proof.
  induction l as [|a l IH]; intros seen c; cbn [foldl].
  - split; [auto | intros [H|H]; [exact H | now apply elem_of_nil in H]].
  - rewrite IH. unfold register. rewrite elem_of_cons.
    destruct (decide (a ∈ seen)) as [Ha|Ha].
    + split; [tauto|]. intros [H|[->|H]]; auto.
    + rewrite elem_of_app, list_elem_of_singleton. tauto.
Qed.

Section Registry.

Variable RT : R.

Lemma run_types (ops : list GlobalFit.op) :
  domain_types (GlobalFit.run RT ops)
  = registry_of (concat (map snd (GlobalFit.appended ops))).
Proof.
  unfold registry_of. induction ops as [|o ops IH] using rev_ind; [reflexivity|].
  destruct (run_session RT ops) as [Hok _].
  unfold GlobalFit.run, GlobalFit.appended in *.
  rewrite foldl_app, omap_app, map_app, concat_app, foldl_app, <- IH.
  cbn [foldl omap]. set (s := foldl (GlobalFit.step RT) GlobalFit.init ops) in *.
  destruct o as [[c|] t|x]; cbn [GlobalFit.step omap list_omap map concat snd foldl].
  - rewrite app_nil_r. unfold GlobalFit.append.
    pose proof (append_loop_types t s [] Hok) as Ht.
    destruct (GlobalFit.append_loop t s []) as [[q|e] s1]; cbn [snd] in *; [|exact Ht].
    now destruct (IsingPartitionFunction_init (AList (map AnIsingDomain q))).
  - reflexivity.
  - destruct (call_session RT s x Hok) as (Hok' & _ & Hc).
    now rewrite (ok_types _ Hok'), Hc, (ok_types s Hok).
Qed.

(** X7.  In the session reached by any sequence of calls, the registry
    [domain_types] lists the classes of the appended topologies, each once,
    in the order in which they first occur; [domains] and the store run
    parallel to it: the [i]-th domain object is an instance of the [i]-th
    registered class. *)
Theorem registry_first_occurrences (ops : list GlobalFit.op) :
  let s := GlobalFit.run RT ops in
  domain_types s = registry_of (concat (map snd (GlobalFit.appended ops))) /\
  NoDup (domain_types s) /\
  (forall c : domain_class,
     c ∈ domain_types s <->
     exists ct, ct ∈ GlobalFit.appended ops /\ c ∈ ct.2) /\
  length (domains s) = length (domain_types s) /\
  (forall (i : nat) (c : domain_class),
     domain_types s !! i = Some c ->
     exists (r : ref) (d : IsingDomain),
       domains s !! i = Some r /\ store s !! r = Some d /\ cls d = c).
Proof.
  intros s. destruct (run_session RT ops) as [Hok _]. fold s in Hok.
  split; [apply run_types|]. split; [apply Hok|]. split; [|split].
  - intros c. unfold s. rewrite run_types. unfold registry_of.
    rewrite elem_of_foldl_register. split.
    + intros [H|H]; [now apply elem_of_nil in H|].
      apply list_elem_of_In, in_concat in H as (t & Ht & Hc).
      apply in_map_iff in Ht as (ct & <- & Hct).
      exists ct. split; now apply list_elem_of_In.
    + intros (ct & Hct & Hc). right.
      apply list_elem_of_In, in_concat. exists ct.2.
      split; [apply in_map, list_elem_of_In, Hct | now apply list_elem_of_In].
  - now rewrite (ok_domains s Hok), (ok_types s Hok), length_seq, length_map.
  - intros i c Hi. rewrite (ok_types s Hok) in Hi.
    change (map cls (store s)) with (cls <$> store s) in Hi.
    rewrite list_lookup_fmap in Hi.
    destruct (store s !! i) as [d|] eqn:Ed; [|discriminate]. injection Hi as Hi.
    exists i, d. split; [|auto].
    rewrite (ok_domains s Hok). apply lookup_seq_lt. now apply lookup_lt_Some in Ed.
Qed.

End Registry.

(** ** What the objective never assigns *)

Lemma map_insert_same {A B : Type} (g : A -> B) (h : list A) (r : nat) (d d' : A) :
  h !! r = Some d -> g d' = g d -> map g (<[r := d']> h) = map g h.
Proof.
  intros Hd Hg. change (g <$> <[r := d']> h = g <$> h).
  rewrite list_fmap_insert, Hg. apply list_insert_id.
  now rewrite list_lookup_fmap, Hd.
Qed.

Lemma fixed_part_assign_fields (d : IsingDomain) (ls : list string) (vs : list R) :
  labels d = Ret ls -> fixed_part (assign_fields d ls vs) = fixed_part d.
Proof.
  unfold labels, used_variables, fixed_part, is_cap, assign_fields.
  destruct d as [c a b e f]. cbn [cls m_ij DG_ij].
  destruct c; cbn; intros [= <-];
    destruct vs as [|v1 [|v2 [|v3 vs]]]; reflexivity.
Qed.

Lemma assign_labels_any (r : ref) (ls : list string) :
  forall (h : list IsingDomain) (x : list R) (d : IsingDomain),
    h !! r = Some d ->
    (GlobalFit.assign_labels h r ls x).2 = <[r := assign_fields d ls x]> h.
Proof.
  induction ls as [|p ls IH]; intros h x d Hd.
  - cbn. symmetry. now apply list_insert_id.
  - destruct x as [|v x]; cbn [GlobalFit.assign_labels].
    + cbn. symmetry. now apply list_insert_id.
    + rewrite Hd. rewrite (IH _ x (setattr d p v)).
      * now rewrite list_insert_insert_eq.
      * apply list_lookup_insert_eq. now apply lookup_lt_Some in Hd.
Qed.

Lemma assign_domains_fixed (doms : list ref) :
  forall (h : list IsingDomain) (x : list R),
    map fixed_part (GlobalFit.assign_domains h doms x).2 = map fixed_part h.
Proof.
  induction doms as [|r doms IH]; intros h x; [reflexivity|].
  cbn [GlobalFit.assign_domains]. unfold deref.
  destruct (h !! r) as [d|] eqn:Hd; [|reflexivity]. cbn [mbind outcome_bind].
  destruct (labels_spec d) as (ls & El & _). rewrite El.
  pose proof (assign_labels_any r ls h x d Hd) as Ha.
  destruct (GlobalFit.assign_labels h r ls x) as [[rest|e] h1]; cbn [snd] in *; subst h1.
  - rewrite IH. apply (map_insert_same fixed_part h r d); [exact Hd|].
    now apply fixed_part_assign_fields.
  - apply (map_insert_same fixed_part h r d); [exact Hd|].
    now apply fixed_part_assign_fields.
Qed.

Section Unassigned.

Variable RT : R.

Lemma call_fixed (s : GlobalFitWrapper) (x : list R) :
  map fixed_part (store (GlobalFit.call RT s x).2) = map fixed_part (store s).
Proof.
  unfold GlobalFit.call. destruct (decide (length (proteins s) < 1)%nat); [reflexivity|].
  pose proof (assign_domains_fixed (domains s) (store s) x) as H.
  destruct (GlobalFit.assign_domains (store s) (domains s) x) as [[rest|e] h]; exact H.
Qed.

(** X8.  In the session reached by any sequence of calls, every domain
    object has kept the default [m_ij = -0.5], and every cap domain the
    default [DG_ij = -4]: the objective assigns neither, whatever vectors
    it was called with. *)
Theorem unused_parameters_keep_defaults (ops : list GlobalFit.op) :
  Forall (fun d => m_ij d = -0.5 /\ (is_cap d = true -> DG_ij d = -4))
         (store (GlobalFit.run RT ops)).
Proof.
  assert (H : Forall (fun fp => fp = fixed_part (IsingDomain_init fp.1.1))
                (map fixed_part (store (GlobalFit.run RT ops)))).
  { induction ops as [|o ops IH] using rev_ind; [constructor|].
    unfold GlobalFit.run in *. rewrite foldl_app. cbn [foldl].
    set (s := foldl (GlobalFit.step RT) GlobalFit.init ops) in *.
    destruct o as [curve t|x]; cbn [GlobalFit.step].
    - destruct (append_grows s curve t) as (ext & ps & E & Hext & _).
      cbn zeta in E. rewrite E, map_app. apply Forall_app. split; [exact IH|].
      apply Forall_fmap. eapply Forall_impl; [exact Hext|].
      intros d [_ Hd]. cbn. now rewrite Hd at 1.
    - now rewrite call_fixed. }
  apply Forall_fmap in H. eapply Forall_impl; [exact H|].
  intros d Hd. unfold fixed_part in Hd. cbn in Hd.
  injection Hd as Hm Hc. split; [exact Hm|].
  intros Hcap. rewrite Hcap in Hc. unfold is_cap in Hcap, Hc. cbn in Hc.
  destruct (cls d); try discriminate; now injection Hc.
Qed.

End Unassigned.

(** ** The objective depends on its vector alone *)

Lemma assign_fields_fixed_eq (d1 d2 : IsingDomain) (ls : list string) (vs : list R) :
  fixed_part d1 = fixed_part d2 -> labels d1 = Ret ls ->
  (length ls <= length vs)%nat ->
  assign_fields d1 ls vs = assign_fields d2 ls vs.
Proof.
  destruct d1 as [c1 a1 b1 e1 f1], d2 as [c2 a2 b2 e2 f2].
  unfold fixed_part, is_cap, labels, used_variables, assign_fields. cbn [cls m_ij DG_ij].
  intros Hfp. injection Hfp as <- <- Hopt.
  destruct c1; cbn in Hopt |- *; intros [= <-] Hlen;
    destruct vs as [|v1 [|v2 [|v3 vs]]]; cbn in Hlen; try lia;
    try reflexivity; now injection Hopt as <-.
Qed.

Lemma labels_fixed_eq (d1 d2 : IsingDomain) :
  fixed_part d1 = fixed_part d2 -> labels d1 = labels d2.
Proof.
  unfold fixed_part, labels, used_variables. intros [= Hc _ _]. now rewrite Hc.
Qed.

Lemma classes_of_fixed (h1 h2 : list IsingDomain) :
  map fixed_part h1 = map fixed_part h2 -> map cls h1 = map cls h2.
Proof.
  intros H. apply (f_equal (map (fun fp : domain_class * R * option R => fp.1.1))) in H.
  now rewrite !map_map in H.
Qed.

(** Two stores that agree outside the assigned attributes are equal after
    the assignment of a vector with a value for every slot. *)
Lemma assign_domains_fixed_eq (doms : list ref) :
  forall (h1 h2 : list IsingDomain) (x : list R),
    map fixed_part h1 = map fixed_part h2 ->
    NoDup doms -> (forall r, r ∈ doms -> (r < length h1)%nat) ->
    (forall r, r ∉ doms -> h1 !! r = h2 !! r) ->
    (length (slots_of h1 doms) <= length x)%nat ->
    GlobalFit.assign_domains h1 doms x = GlobalFit.assign_domains h2 doms x.
Proof.
  induction doms as [|r doms IH]; intros h1 h2 x Hfp Hnd Hin Hout Hlen.
  - cbn. f_equal. apply list_eq. intros r. apply Hout, not_elem_of_nil.
  - apply NoDup_cons in Hnd as [Hr Hnd].
    assert (Hl : length h1 = length h2).
    { rewrite <- (length_map fixed_part h1), Hfp. apply length_map. }
    destruct (lookup_lt_is_Some_2 h1 r (Hin r ltac:(left))) as [d1 Hd1].
    destruct (lookup_lt_is_Some_2 h2 r ltac:(rewrite <- Hl; apply Hin; left)) as [d2 Hd2].
    assert (Hfd : fixed_part d1 = fixed_part d2).
    { assert (E : map fixed_part h1 !! r = map fixed_part h2 !! r) by now rewrite Hfp.
      change (map fixed_part ?l) with (fixed_part <$> l) in E.
      rewrite !list_lookup_fmap, Hd1, Hd2 in E.
      cbn [fmap option_fmap option_map] in E. congruence. }
    destruct (labels_spec d1) as (ls & El & Hls & _).
    pose proof (Forall2_length _ _ _ Hls) as Hlen_ls.
    rewrite (slots_of_cons h1 r doms d1 Hd1), length_app, length_map in Hlen.
    cbn [GlobalFit.assign_domains]. unfold deref. rewrite Hd1, Hd2.
    cbn [mbind outcome_bind]. rewrite <- (labels_fixed_eq d1 d2 Hfd), El.
    rewrite (assign_labels_spec r ls h1 x d1 Hd1), (assign_labels_spec r ls h2 x d2 Hd2) by lia.
    rewrite <- (assign_fields_fixed_eq d1 d2 ls x Hfd El) by lia.
    set (a := assign_fields d1 ls x).
    assert (Hc1 : map cls (<[r := a]> h1) = map cls h1).
    { apply (map_cls_insert h1 r d1); [exact Hd1 | apply cls_assign_fields]. }
    apply IH.
    + change (fixed_part <$> <[r := a]> h1 = fixed_part <$> <[r := a]> h2).
      rewrite !list_fmap_insert. change (fixed_part <$> ?l) with (map fixed_part l).
      now rewrite Hfp.
    + exact Hnd.
    + intros r0 Hr0. rewrite length_insert. apply Hin. now right.
    + intros r0 Hr0. destruct (decide (r0 = r)) as [->|Hne].
      * rewrite !list_lookup_insert_eq; [reflexivity | | ].
        -- rewrite <- Hl. apply Hin. left.
        -- apply Hin. left.
      * rewrite !list_lookup_insert_ne by congruence.
        apply Hout. apply not_elem_of_cons. auto.
    + rewrite (slots_of_classes h1 _ doms Hc1), length_drop. lia.
Qed.

Section HistoryFree.

Variable RT : R.

Lemma call_store_eq (s1 s2 : GlobalFitWrapper) (x : list R) :
  proteins s1 = proteins s2 -> domains s1 = domains s2 ->
  domain_types s1 = domain_types s2 ->
  GlobalFit.assign_domains (store s1) (domains s1) x
  = GlobalFit.assign_domains (store s2) (domains s2) x ->
  proteins s1 <> [] ->
  GlobalFit.call RT s1 x = GlobalFit.call RT s2 x.
Proof.
  intros Hp Hd Ht Ha Hne. unfold GlobalFit.call.
  rewrite <- Hp, <- Ht, Ha, <- Hd.
  destruct (decide (length (proteins s1) < 1)%nat) as [Hlt|_]; [|reflexivity].
  destruct (proteins s1); [contradiction | cbn in Hlt; lia].
Qed.

(** X9.  In the session reached by any sequence of calls, evaluating the
    objective on a vector with a value for every slot gives the same
    outcome and leaves the same session whether or not another vector was
    evaluated just before: earlier parameter values leave no trace. *)
Theorem objective_forgets_earlier_vectors (ops : list GlobalFit.op) (x y : list R) :
  let s := GlobalFit.run RT ops in
  (length (slots s) <= length x)%nat ->
  GlobalFit.call RT (GlobalFit.call RT s y).2 x = GlobalFit.call RT s x.
Proof.
  intros s Hlen. destruct (run_session RT ops) as [Hok _]. fold s in Hok.
  destruct (proteins s) as [|p ps] eqn:Eps.
  - now rewrite (call_empty RT s y Eps).
  - destruct (call_session RT s y Hok) as (Hok' & Hp & Hc).
    pose proof (call_fixed RT s y) as Hfp.
    set (sy := (GlobalFit.call RT s y).2) in *.
    destruct (registry_refs sy Hok') as [Hnd Hin].
    assert (Hl : length (store sy) = length (store s)).
    { rewrite <- (length_map cls (store sy)), Hc. apply length_map. }
    assert (Hd : domains sy = domains s).
    { now rewrite (ok_domains sy Hok'), (ok_domains s Hok), Hl. }
    apply call_store_eq.
    + exact Hp.
    + exact Hd.
    + now rewrite (ok_types sy Hok'), (ok_types s Hok), Hc.
    + rewrite Hd. apply assign_domains_fixed_eq.
      * exact Hfp.
      * now rewrite <- Hd.
      * intros r Hr. apply Hin. now rewrite Hd.
      * intros r Hr. rewrite (ok_domains s Hok), elem_of_seq in Hr.
        rewrite !lookup_ge_None_2; [reflexivity | lia | lia].
      * rewrite (slots_of_classes (store s) (store sy) (domains s) Hc). exact Hlen.
    + rewrite Hp, Eps. discriminate.
Qed.

End HistoryFree.

Lemma objective_forgets_earlier_vectors_witness :
  let s := GlobalFit.run RT_sample sample_ops in
  GlobalFit.call RT_sample (GlobalFit.call RT_sample s [9; 8; 7]).2 [1; 2; 3; 4; 5]
  = GlobalFit.call RT_sample s [1; 2; 3; 4; 5].
Proof.
  apply (objective_forgets_earlier_vectors RT_sample sample_ops [1; 2; 3; 4; 5] [9; 8; 7]).
  rewrite sample_slots. cbn. lia.
Defined.

(** ** The value of the objective and the residuals *)

Lemma comprehension_inv {A B : Type} (f : A -> outcome B) (P : B -> Prop) (l : list A) :
  (forall a b, a ∈ l -> f a = Ret b -> P b) ->
  forall bs : list B, comprehension f l = Ret bs -> Forall P bs /\ length bs = length l.
Proof.
  induction l as [|a l IH]; intros H bs E; cbn [comprehension] in E.
  - injection E as <-. split; [constructor | reflexivity].
  - destruct (f a) as [b|e] eqn:Eb; [|discriminate]. cbn [mbind outcome_bind] in E.
    destruct (comprehension f l) as [bs'|e]; [|discriminate].
    cbn [mbind outcome_bind] in E. injection E as <-.
    destruct (IH ltac:(intros a' b' Ha'; apply H; now right) bs' eq_refl) as [HP HL].
    split; [constructor; [apply (H a b); [left | exact Eb] | exact HP] | cbn; now rewrite HL].
Qed.

Lemma sum_squares_residuals (fit y : list R) :
  GlobalFit.sum_squares fit y = np_sum (map (fun r => r ^ 2) (zip_with Rminus y fit)).
Proof.
  unfold GlobalFit.sum_squares. revert y.
  induction fit as [|f fit IH]; intros [|v y]; try reflexivity.
  cbn [zip_with map]. rewrite !np_sum_cons, IH, pow2_abs. f_equal. ring.
Qed.

Section ResidualsOfSessions.

Variable RT : R.

Lemma theta_array_length (h : list IsingDomain) (q : IsingPartitionFunction ref)
    (den fit : list R) :
  GlobalFit.theta_array RT h q den = Ret fit -> length fit = length den.
Proof.
  unfold GlobalFit.theta_array. intros E.
  destruct (comprehension (deref h) (topology q)) as [ds|e]; [|discriminate].
  cbn [mbind outcome_bind] in E.
  now apply (comprehension_inv _ (fun _ => True) _) in E as [_ L].
Qed.

Lemma tracked_theta_array_returns (s : GlobalFitWrapper)
    (cts : list (EquilibriumDenaturationCurve * list domain_class)) (p : protein) :
  Forall2 (tracks s) (proteins s) cts -> p ∈ proteins s ->
  exists fit : list R,
    GlobalFit.theta_array RT (store s) (protein_partition p) (curve_x (protein_curve p))
    = Ret fit.
Proof.
  intros Htr Hp. apply list_elem_of_lookup in Hp as [k Hk].
  destruct (Forall2_lookup_l _ _ _ _ _ Htr Hk) as (ct & _ & _ & _ & Hn & Hq).
  apply theta_array_returns.
  - rewrite Hn. symmetry. exact (Forall2_length _ _ _ Hq).
  - intros r Hr. apply list_elem_of_lookup in Hr as [j Hj].
    destruct (Forall2_lookup_l _ _ _ _ _ Hq Hj) as (c & _ & Hc).
    unfold refers in Hc. destruct (store s !! r) eqn:Er; [|discriminate].
    now apply lookup_lt_Some in Er.
Qed.

Lemma residuals_loop_spec (h : list IsingDomain) (ps : list protein) :
  (forall p, p ∈ ps ->
     exists fit, GlobalFit.theta_array RT h (protein_partition p)
                   (curve_x (protein_curve p)) = Ret fit) ->
  forall res0 r0 : list R,
    exists res r2 vs : list R,
      residuals_loop RT h ps res0 r0 = Ret (res0 ++ res, r0 ++ r2) /\
      comprehension
        (fun p => fit ← GlobalFit.theta_array RT h (protein_partition p)
                          (curve_x (protein_curve p));
                  Ret (GlobalFit.sum_squares fit (curve_y (protein_curve p)))) ps
      = Ret vs /\
      np_sum vs = np_sum (map (fun r => r ^ 2) res) /\
      length res = sum_list_with (fun p => length (points (protein_curve p))) ps /\
      Forall2 (fun p r => exists ss_res : R,
                 0 <= ss_res /\ r = 1 - ss_res / SS_tot (curve_y (protein_curve p)))
              ps r2.
Proof.
  induction ps as [|p ps IH]; intros H res0 r0.
  - exists [], [], []. cbn. rewrite !app_nil_r. repeat split; constructor.
  - destruct (H p ltac:(left)) as [fit Ef].
    pose proof (theta_array_length _ _ _ _ Ef) as Lf.
    set (y := curve_y (protein_curve p)).
    set (d := zip_with Rminus y fit).
    destruct (IH ltac:(intros p' Hp'; apply H; now right)
                (res0 ++ d) (r0 ++ [1 - np_sum (map (fun r => r ^ 2) d) / SS_tot y]))
      as (res & r2 & vs & E & Ec & Es & El & Hr).
    exists (d ++ res), ((1 - np_sum (map (fun r => r ^ 2) d) / SS_tot y) :: r2),
           (GlobalFit.sum_squares fit y :: vs).
    cbn [residuals_loop comprehension]. rewrite Ef. cbn [mbind outcome_bind].
    fold y. fold d. rewrite E, Ec, <- !app_assoc. cbn [mbind outcome_bind app].
    split; [reflexivity|]. split; [reflexivity|]. split; [|split].
    + rewrite np_sum_cons, map_app, np_sum_app, Es. f_equal.
      apply sum_squares_residuals.
    + rewrite length_app, El. cbn [sum_list_with]. f_equal.
      unfold d, y, curve_y, curve_x in *. rewrite length_zip_with, length_map.
      rewrite length_map in Lf. lia.
    + constructor; [|exact Hr].
      exists (np_sum (map (fun r => r ^ 2) d)). split; [|reflexivity].
      apply np_sum_nonneg. clear. induction d; cbn; constructor; [apply pow2_ge_0 | auto].
Qed.

(** X11.  In a session whose appended topologies are all non-empty:
    after the objective has been evaluated on a vector with a value for
    every slot, [calculate_fit_residuals] returns one residual per data
    point and one R-squared per curve, and the squares of the residuals
    sum to the value the objective returned. *)
Theorem residuals_square_to_objective (ops : list GlobalFit.op) (x : list R) :
  let s := GlobalFit.run RT ops in
  Forall (fun ct => ct.2 <> []) (GlobalFit.appended ops) ->
  proteins s <> [] -> (length (slots s) <= length x)%nat ->
  exists res r_squared : list R,
    calculate_fit_residuals RT (GlobalFit.call RT s x).2 = Ret (res, r_squared) /\
    (GlobalFit.call RT s x).1 = Ret (np_sum (map (fun r => r ^ 2) res)) /\
    length res = sum_list_with (fun p => length (points (protein_curve p))) (proteins s) /\
    length r_squared = length (proteins s).
Proof.
  intros s _ Hne Hlen. destruct (run_session RT ops) as [Hok Htr]. fold s in Hok, Htr.
  destruct (call_assigns RT s x Hok Hne Hlen) as (h' & _ & Ecall & Hc & _).
  cbn zeta in Ecall. rewrite Ecall. cbn [fst snd].
  set (s' := {| store := h' |}) in *.
  assert (Htr' : Forall2 (tracks s') (proteins s') (GlobalFit.appended ops)).
  { eapply Forall2_impl; [exact Htr|]. intros p ct. apply tracks_mono.
    intros r c. now apply refers_classes. }
  destruct (residuals_loop_spec (store s') (proteins s')
              (fun p Hp => tracked_theta_array_returns s' _ p Htr' Hp) [] [])
    as (res & r2 & vs & E & Ec & Es & El & Hr).
  exists res, r2. unfold calculate_fit_residuals. rewrite E.
  split; [reflexivity|]. split; [|split].
  - unfold GlobalFit.residual_sum. rewrite Ec. cbn [mbind outcome_bind]. now rewrite Es.
  - exact El.
  - symmetry. exact (Forall2_length _ _ _ Hr).
Qed.

End ResidualsOfSessions.

Lemma residuals_square_to_objective_witness :
  let s := GlobalFit.run RT_sample sample_ops in
  Forall (fun ct => ct.2 <> []) (GlobalFit.appended sample_ops) /\
  exists res r_squared : list R,
    calculate_fit_residuals RT_sample
      (GlobalFit.call RT_sample s [1; 2; 3; 4; 5]).2 = Ret (res, r_squared) /\
    (GlobalFit.call RT_sample s [1; 2; 3; 4; 5]).1
      = Ret (np_sum (map (fun r => r ^ 2) res)) /\
    length res = sum_list_with (fun p => length (points (protein_curve p))) (proteins s) /\
    length r_squared = length (proteins s).
Proof.
  assert (H : Forall (fun ct => ct.2 <> []) (GlobalFit.appended sample_ops))
    by (repeat constructor; discriminate).
  split; [exact H|].
  apply (residuals_square_to_objective RT_sample sample_ops [1; 2; 3; 4; 5]).
  - exact H.
  - discriminate.
  - rewrite sample_slots. cbn. lia.
Defined.
